(** * VoiceWaveVisualizer: loudness, pitch proxy, waveform geometry and lifecycle

    Shallow embedding of [src/components/VoiceWaveVisualizer.tsx].

    Numbers.  JavaScript numbers are modelled by exact rationals ([Q]); the
    accumulators that only ever hold integers ([sum], [maxValue], the loop
    index) are kept in [Z] and [nat] and injected where the source divides.
    A [Uint8Array] is a [list byte]; an element read is [u8 (nth i a x00)].
    Every loop of the source runs [i] from [0] to the length of the array it
    reads, so no read is out of range. *)

From Stdlib Require Import ZArith QArith Qminmax List Bool Lia Lqa PeanoNat.
From Stdlib Require Import Strings.Byte.
From Stdlib Require Import Qround.
Import ListNotations.

Local Open Scope Z_scope.

(** ** Typed arrays *)

Definition u8 (b : byte) : Z := Z.of_N (Byte.to_N b).

(** [new Uint8Array(n)]: [n] zero bytes. *)
Definition Uint8Array (n : nat) : list byte := repeat x00 n.

(** [dataArray[i]] for [i] inside the array. *)
Definition at_index (a : list byte) (i : nat) : Z := u8 (nth i a x00).

(** The analyser copies its current window into the caller's array: the
    array keeps its length, surplus window samples are dropped, and a
    window shorter than the array leaves the tail untouched. *)
Fixpoint copy_into (window array : list byte) : list byte :=
  match array, window with
  | [], _ => []
  | _ :: _, [] => array
  | _ :: array', w :: window' => w :: copy_into window' array'
  end.

(** [for (let i = start; i < start + count; i++) body]. *)
Fixpoint for_loop {A : Type} (count start : nat) (body : nat -> A -> A)
  (acc : A) : A :=
  match count with
  | O => acc
  | S k => for_loop k (S start) body (body start acc)
  end.

(** ** Feature extraction (lines 85-104 of the source) *)

Module Features.

(** Lines 86-89: [sum += Math.abs(dataArray[i] - 128)]. *)
Definition sum_loop (bufferLength : nat) (dataArray : list byte) : Z :=
  for_loop bufferLength 0
    (fun i sum => sum + Z.abs (at_index dataArray i - 128)) 0.

(** Line 90: [Math.min((sum / bufferLength) * 4, 100)]. *)
Definition newVolume (bufferLength : nat) (dataArray : list byte) : Q :=
  Qmin ((inject_Z (sum_loop bufferLength dataArray)
         / inject_Z (Z.of_nat bufferLength)) * 4)%Q 100%Q.

(** Lines 94-101: the scan keeps the pair [(maxValue, maxIndex)] and
    replaces it only on a strictly larger magnitude. *)
Definition max_loop (frequencyData : list byte) : Z * nat :=
  for_loop (length frequencyData) 0
    (fun i st =>
       if at_index frequencyData i >? fst st
       then (at_index frequencyData i, i)
       else st)
    (0, 0%nat).

Definition maxIndex (frequencyData : list byte) : nat :=
  snd (max_loop frequencyData).

(** Line 103: [Math.min(maxIndex / 20, 100)]. *)
Definition normalizedPitch (frequencyData : list byte) : Q :=
  Qmin (inject_Z (Z.of_nat (maxIndex frequencyData)) / 20)%Q 100%Q.

(** Line 118. *)
Definition amplitudeFactor (newVolume normalizedPitch : Q) : Q :=
  ((newVolume / 50) * (normalizedPitch / 50 + 0.5))%Q.

End Features.

(** ** The feature formulas as the specification words them *)

Module FeatureSpec.

(** Sum over [i] in [[0, N)] of [|sample[i] - 128|]. *)
Definition deviation_sum (samples : list byte) : Z :=
  fold_right Z.add 0 (map (fun s => Z.abs (u8 s - 128)) samples).

(** Mean absolute deviation from the midpoint, scaled by 4, clamped. *)
Definition loudness (samples : list byte) : Q :=
  Qmin ((inject_Z (deviation_sum samples)
         / inject_Z (Z.of_nat (length samples))) * 4)%Q 100%Q.

(** The maximum magnitude of a spectrum (0 for the empty one). *)
Definition max_magnitude (spectrum : list byte) : Z :=
  fold_right Z.max 0 (map u8 spectrum).

(** Index of the first bin holding magnitude [m]; the length when none. *)
Fixpoint first_index_of (m : Z) (spectrum : list byte) : nat :=
  match spectrum with
  | [] => 0%nat
  | b :: rest => if u8 b =? m then 0%nat else S (first_index_of m rest)
  end.

(** First occurrence of the maximum magnitude. *)
Definition dominant_bin (spectrum : list byte) : nat :=
  first_index_of (max_magnitude spectrum) spectrum.

Definition pitchProxy (spectrum : list byte) : Q :=
  Qmin (inject_Z (Z.of_nat (dominant_bin spectrum)) / 20)%Q 100%Q.

End FeatureSpec.

(** Buffer alternating 0, 255, 0, 255, ... of length [n]. *)
Definition alternating (n : nat) : list byte :=
  map (fun i => if Nat.even i then x00 else xff) (seq 0 n).

(** ** The canvas and what is drawn on it (lines 106-134) *)

Inductive DrawCmd : Type :=
| FillStyleRgb (r g b : Z)
| FillRect (x y w h : Q)
| LineWidth (w : Q)
| StrokeStyleHsl (hue saturation lightness : Q)
| BeginPath
| MoveTo (x y : Q)
| LineTo (x y : Q)
| Stroke.

Record Canvas : Type := mkCanvas {
  width : Z;
  height : Z;
  clientWidth : Z;
  clientHeight : Z;
  (** whether [getContext("2d")] yields a context rather than [null] *)
  context2d : bool;
  (** every call made on the 2D context, oldest first *)
  commands : list DrawCmd
}.

Module Render.

(** Lines 120-131: one vertex per sample; [x] is advanced by [sliceWidth]
    after each vertex.  The loop state is [(x, path so far)]. *)
Definition path_loop (bufferLength : nat) (dataArray : list byte)
  (canvasHeight sliceWidth amplitudeFactor : Q) : Q * list DrawCmd :=
  for_loop bufferLength 0
    (fun i st =>
       let x := fst st in
       let v := ((inject_Z (at_index dataArray i) / 128 - 1)
                 * amplitudeFactor)%Q in
       let y := (canvasHeight / 2 + (v * canvasHeight) / 2)%Q in
       ((x + sliceWidth)%Q,
        snd st ++ [if Nat.eqb i 0 then MoveTo x y else LineTo x y]))
    (0%Q, []).

(** Lines 107-134 for a canvas of the given size. *)
Definition draw (canvasWidth canvasHeight : Z) (bufferLength : nat)
  (dataArray : list byte) (newVolume normalizedPitch : Q) : list DrawCmd :=
  let w := inject_Z canvasWidth in
  let h := inject_Z canvasHeight in
  let sliceWidth := (w / inject_Z (Z.of_nat bufferLength))%Q in
  let amplitudeFactor := Features.amplitudeFactor newVolume normalizedPitch in
  [FillStyleRgb 20 20 30; FillRect 0 0 w h; LineWidth 3;
   StrokeStyleHsl (normalizedPitch * 2) 100 50; BeginPath]
  ++ snd (path_loop bufferLength dataArray h sliceWidth amplitudeFactor)
  ++ [LineTo w (h / 2)%Q; Stroke].

(** The vertex the specification gives for sample index [i]. *)
Definition spec_x (canvasWidth : Z) (N i : nat) : Q :=
  (inject_Z (Z.of_nat i) * (inject_Z canvasWidth / inject_Z (Z.of_nat N)))%Q.

Definition spec_y (canvasHeight : Z) (samples : list byte)
  (amplitudeFactor : Q) (i : nat) : Q :=
  (inject_Z canvasHeight / 2
   + ((inject_Z (at_index samples i) / 128 - 1) * amplitudeFactor)
     * (inject_Z canvasHeight / 2))%Q.

(** A path command lies at [(x, y)] up to equality of rationals. *)
Definition vertex_at (first : bool) (x y : Q) (c : DrawCmd) : Prop :=
  match c with
  | MoveTo x' y' => first = true /\ (x' == x)%Q /\ (y' == y)%Q
  | LineTo x' y' => first = false /\ (x' == x)%Q /\ (y' == y)%Q
  | _ => False
  end.

End Render.

(** ** Platform objects *)

Record AudioContext : Type := mkAudioContext { contextId : nat }.

Record AnalyserNode : Type := mkAnalyser { fftSize : nat }.

Definition frequencyBinCount (a : AnalyserNode) : nat := (fftSize a / 2)%nat.

Record MediaStream : Type := mkStream { getTracks : list nat }.

(** What the analyser currently holds when a tick reads it. *)
Record AudioWindow : Type := mkWindow {
  timeDomain : list byte;
  frequency : list byte
}.

Definition getByteTimeDomainData (w : AudioWindow) (array : list byte) :=
  copy_into (timeDomain w) array.

Definition getByteFrequencyData (w : AudioWindow) (array : list byte) :=
  copy_into (frequency w) array.

(** How the platform settles a [getUserMedia] request: a stream with so
    many tracks, or a rejection (permission denied, no device). *)
Inductive MediaOutcome : Type :=
| Granted (ntracks : nat)
| Rejected.

(** ** Component and browser state *)

Record State : Type := mkState {
  (** [useState]: the three pieces of React state *)
  isListening : bool;
  volume : Q;
  pitch : Q;
  (** [useRef]: the five refs *)
  audioContextRef : option AudioContext;
  analyserRef : option AnalyserNode;
  mediaStreamRef : option MediaStream;
  animationFrameRef : option positive;
  canvasRef : option Canvas;
  (** the browser: capture tracks not yet stopped, counters for the
      identities it hands out, animation-frame callbacks not yet run,
      [getUserMedia] requests not yet settled, [console.error] calls *)
  liveTracks : list nat;
  tracksCreated : nat;
  contextsCreated : nat;
  frameQueue : list positive;
  nextFrameId : positive;
  pendingMedia : nat;
  consoleErrors : nat
}.

(** Field updates. *)
Definition set_isListening (x : bool) (s : State) : State :=
  mkState x (volume s) (pitch s) (audioContextRef s) (analyserRef s)
    (mediaStreamRef s) (animationFrameRef s) (canvasRef s) (liveTracks s)
    (tracksCreated s) (contextsCreated s) (frameQueue s) (nextFrameId s)
    (pendingMedia s) (consoleErrors s).

Definition set_volume (x : Q) (s : State) : State :=
  mkState (isListening s) x (pitch s) (audioContextRef s) (analyserRef s)
    (mediaStreamRef s) (animationFrameRef s) (canvasRef s) (liveTracks s)
    (tracksCreated s) (contextsCreated s) (frameQueue s) (nextFrameId s)
    (pendingMedia s) (consoleErrors s).

Definition set_pitch (x : Q) (s : State) : State :=
  mkState (isListening s) (volume s) x (audioContextRef s) (analyserRef s)
    (mediaStreamRef s) (animationFrameRef s) (canvasRef s) (liveTracks s)
    (tracksCreated s) (contextsCreated s) (frameQueue s) (nextFrameId s)
    (pendingMedia s) (consoleErrors s).

Definition set_audioContextRef (x : option AudioContext) (s : State) : State :=
  mkState (isListening s) (volume s) (pitch s) x (analyserRef s)
    (mediaStreamRef s) (animationFrameRef s) (canvasRef s) (liveTracks s)
    (tracksCreated s) (contextsCreated s) (frameQueue s) (nextFrameId s)
    (pendingMedia s) (consoleErrors s).

Definition set_analyserRef (x : option AnalyserNode) (s : State) : State :=
  mkState (isListening s) (volume s) (pitch s) (audioContextRef s) x
    (mediaStreamRef s) (animationFrameRef s) (canvasRef s) (liveTracks s)
    (tracksCreated s) (contextsCreated s) (frameQueue s) (nextFrameId s)
    (pendingMedia s) (consoleErrors s).

Definition set_mediaStreamRef (x : option MediaStream) (s : State) : State :=
  mkState (isListening s) (volume s) (pitch s) (audioContextRef s)
    (analyserRef s) x (animationFrameRef s) (canvasRef s) (liveTracks s)
    (tracksCreated s) (contextsCreated s) (frameQueue s) (nextFrameId s)
    (pendingMedia s) (consoleErrors s).

Definition set_animationFrameRef (x : option positive) (s : State) : State :=
  mkState (isListening s) (volume s) (pitch s) (audioContextRef s)
    (analyserRef s) (mediaStreamRef s) x (canvasRef s) (liveTracks s)
    (tracksCreated s) (contextsCreated s) (frameQueue s) (nextFrameId s)
    (pendingMedia s) (consoleErrors s).

Definition set_canvasRef (x : option Canvas) (s : State) : State :=
  mkState (isListening s) (volume s) (pitch s) (audioContextRef s)
    (analyserRef s) (mediaStreamRef s) (animationFrameRef s) x
    (liveTracks s) (tracksCreated s) (contextsCreated s) (frameQueue s)
    (nextFrameId s) (pendingMedia s) (consoleErrors s).

Definition set_liveTracks (x : list nat) (s : State) : State :=
  mkState (isListening s) (volume s) (pitch s) (audioContextRef s)
    (analyserRef s) (mediaStreamRef s) (animationFrameRef s) (canvasRef s) x
    (tracksCreated s) (contextsCreated s) (frameQueue s) (nextFrameId s)
    (pendingMedia s) (consoleErrors s).

Definition set_tracksCreated (x : nat) (s : State) : State :=
  mkState (isListening s) (volume s) (pitch s) (audioContextRef s)
    (analyserRef s) (mediaStreamRef s) (animationFrameRef s) (canvasRef s)
    (liveTracks s) x (contextsCreated s) (frameQueue s) (nextFrameId s)
    (pendingMedia s) (consoleErrors s).

Definition set_contextsCreated (x : nat) (s : State) : State :=
  mkState (isListening s) (volume s) (pitch s) (audioContextRef s)
    (analyserRef s) (mediaStreamRef s) (animationFrameRef s) (canvasRef s)
    (liveTracks s) (tracksCreated s) x (frameQueue s) (nextFrameId s)
    (pendingMedia s) (consoleErrors s).

Definition set_frameQueue (x : list positive) (s : State) : State :=
  mkState (isListening s) (volume s) (pitch s) (audioContextRef s)
    (analyserRef s) (mediaStreamRef s) (animationFrameRef s) (canvasRef s)
    (liveTracks s) (tracksCreated s) (contextsCreated s) x (nextFrameId s)
    (pendingMedia s) (consoleErrors s).

Definition set_nextFrameId (x : positive) (s : State) : State :=
  mkState (isListening s) (volume s) (pitch s) (audioContextRef s)
    (analyserRef s) (mediaStreamRef s) (animationFrameRef s) (canvasRef s)
    (liveTracks s) (tracksCreated s) (contextsCreated s) (frameQueue s) x
    (pendingMedia s) (consoleErrors s).

Definition set_pendingMedia (x : nat) (s : State) : State :=
  mkState (isListening s) (volume s) (pitch s) (audioContextRef s)
    (analyserRef s) (mediaStreamRef s) (animationFrameRef s) (canvasRef s)
    (liveTracks s) (tracksCreated s) (contextsCreated s) (frameQueue s)
    (nextFrameId s) x (consoleErrors s).

Definition set_consoleErrors (x : nat) (s : State) : State :=
  mkState (isListening s) (volume s) (pitch s) (audioContextRef s)
    (analyserRef s) (mediaStreamRef s) (animationFrameRef s) (canvasRef s)
    (liveTracks s) (tracksCreated s) (contextsCreated s) (frameQueue s)
    (nextFrameId s) (pendingMedia s) x.

(** ** Browser primitives *)

(** [requestAnimationFrame(cb)]: queue the callback under a fresh handle
    (handles are positive, hence truthy) and return the handle. *)
Definition requestAnimationFrame (s : State) : positive * State :=
  let id := nextFrameId s in
  (id, set_nextFrameId (Pos.succ id) (set_frameQueue (frameQueue s ++ [id]) s)).

Definition cancelAnimationFrame (id : positive) (s : State) : State :=
  set_frameQueue (remove Pos.eq_dec id (frameQueue s)) s.

(** [track.stop()]. *)
Definition track_stop (t : nat) (s : State) : State :=
  set_liveTracks (remove Nat.eq_dec t (liveTracks s)) s.

(** [console.error(...)]. *)
Definition console_error (s : State) : State :=
  set_consoleErrors (S (consoleErrors s)) s.

(** The stream a granted [getUserMedia] resolves with: fresh tracks, live
    from the moment the device is opened. *)
Definition open_stream (ntracks : nat) (s : State) : MediaStream * State :=
  let stream := mkStream (seq (tracksCreated s) ntracks) in
  (stream,
   set_tracksCreated (tracksCreated s + ntracks)%nat
     (set_liveTracks (liveTracks s ++ getTracks stream) s)).

(** ** The component (lines 14-137) *)

(** Lines 60 and 136:
    [animationFrameRef.current = requestAnimationFrame(updateWaveform)]. *)
Definition schedule_next (s : State) : State :=
  let (id, s') := requestAnimationFrame s in
  set_animationFrameRef (Some id) s'.

(** Lines 58-137, one run of the callback on the analyser contents [win]. *)
Definition updateWaveform (win : AudioWindow) (s : State) : State :=
  match analyserRef s, canvasRef s with
  | Some analyser, Some canvas =>
      if context2d canvas then
        let canvasWidth := clientWidth canvas in
        let canvasHeight := clientHeight canvas in
        let bufferLength := frequencyBinCount analyser in
        let dataArray :=
          getByteTimeDomainData win (Uint8Array bufferLength) in
        let frequencyData :=
          getByteFrequencyData win (Uint8Array (frequencyBinCount analyser)) in
        let newVolume := Features.newVolume bufferLength dataArray in
        let normalizedPitch := Features.normalizedPitch frequencyData in
        let canvas' :=
          mkCanvas canvasWidth canvasHeight
            (clientWidth canvas) (clientHeight canvas) (context2d canvas)
            (commands canvas
             ++ Render.draw canvasWidth canvasHeight bufferLength dataArray
                  newVolume normalizedPitch) in
        schedule_next
          (set_canvasRef (Some canvas')
             (set_pitch normalizedPitch (set_volume newVolume s)))
      else s
  | _, _ => schedule_next s
  end.

(** Lines 41-55. *)
Definition stopListening (s : State) : State :=
  let s1 :=
    match mediaStreamRef s with
    | Some stream =>
        set_mediaStreamRef None
          (fold_left (fun st track => track_stop track st)
             (getTracks stream) s)
    | None => s
    end in
  let s2 :=
    match animationFrameRef s1 with
    | Some id => set_animationFrameRef None (cancelAnimationFrame id s1)
    | None => s1
    end in
  set_pitch 0%Q (set_volume 0%Q (set_isListening false s2)).

(** Lines 15-21, up to the [await]: the [AudioContext] is constructed and
    stored, then the device is requested. *)
Definition startListening_request (s : State) : State :=
  let ctx := mkAudioContext (contextsCreated s) in
  set_pendingMedia (S (pendingMedia s))
    (set_audioContextRef (Some ctx)
       (set_contextsCreated (S (contextsCreated s)) s)).

(** Lines 21-37, from the [await] on: the request settles with [outcome];
    a rejection, like any exception of the [try] block, lands in the
    [catch], which only logs. *)
Definition startListening_resume (outcome : MediaOutcome) (win : AudioWindow)
  (s : State) : State :=
  let s := set_pendingMedia (Nat.pred (pendingMedia s)) s in
  match outcome with
  | Rejected => console_error s
  | Granted ntracks =>
      let (stream, s1) := open_stream ntracks s in
      let s2 := set_mediaStreamRef (Some stream) s1 in
      match audioContextRef s2 with
      | None => console_error s2
      | Some _ =>
          let analyser := mkAnalyser 2048 in
          let s3 := set_analyserRef (Some analyser) s2 in
          let s4 := set_isListening true s3 in
          updateWaveform win s4
      end
  end.

(** Lines 14-38 run without anything happening during the [await]. *)
Definition startListening (outcome : MediaOutcome) (win : AudioWindow)
  (s : State) : State :=
  startListening_resume outcome win (startListening_request s).

(** Line 181: the button calls [stopListening] when [isListening] and
    [startListening] otherwise. *)
Definition onClick (s : State) : State :=
  if isListening s then stopListening s else startListening_request s.

(** The browser runs a queued animation-frame callback. *)
Definition run_frame (id : positive) (win : AudioWindow) (s : State) : State :=
  updateWaveform win (set_frameQueue (remove Pos.eq_dec id (frameQueue s)) s).

(** Lines 140-144: the effect cleanup; React also detaches the canvas ref. *)
Definition unmount (s : State) : State :=
  set_canvasRef None (stopListening s).

(** State before the first render is committed. *)
Definition initial : State :=
  mkState false 0%Q 0%Q None None None None None [] 0%nat 0%nat [] 1%positive
    0%nat 0%nat.

(** The canvas element attached to [canvasRef] when the component mounts. *)
Definition mount (c : Canvas) (s : State) : State := set_canvasRef (Some c) s.

(** The layout gives the canvas element a new display box. *)
Definition resize (w h : Z) (s : State) : State :=
  match canvasRef s with
  | Some c =>
      set_canvasRef
        (Some (mkCanvas (width c) (height c) w h (context2d c) (commands c))) s
  | None => s
  end.

(** Everything that can happen to a mounted component. *)
Inductive step : State -> State -> Prop :=
| step_mount : forall s c, step s (mount c s)
| step_resize : forall s w h, step s (resize w h s)
| step_click : forall s, step s (onClick s)
| step_settle : forall s outcome win,
    (0 < pendingMedia s)%nat ->
    step s (startListening_resume outcome win s)
| step_frame : forall s id win,
    In id (frameQueue s) ->
    step s (run_frame id win s)
| step_unmount : forall s, step s (unmount s).

Inductive reachable : State -> Prop :=
| reachable_initial : reachable initial
| reachable_step : forall s s', reachable s -> step s s' -> reachable s'.

(** What [forEach(track => track.stop())] leaves of the live tracks. *)
Definition without_tracks (tracks live : list nat) : list nat :=
  fold_left (fun l t => remove Nat.eq_dec t l) tracks live.

(** Lines 22-31 on a granted request: the state in which line 34 makes
    the first call of [updateWaveform]. *)
Definition session_ready (ntracks : nat) (s : State) : State :=
  let s := set_pendingMedia (Nat.pred (pendingMedia s)) s in
  let (stream, s1) := open_stream ntracks s in
  set_isListening true
    (set_analyserRef (Some (mkAnalyser 2048))
       (set_mediaStreamRef (Some stream) s1)).

(** Number of capture tracks the browser holds open. *)
Definition handleCount (s : State) : nat := length (liveTracks s).

(** A run of the callback that gets past both guards and draws. *)
Definition renders (s : State) : Prop :=
  exists analyser canvas,
    analyserRef s = Some analyser /\ canvasRef s = Some canvas
    /\ context2d canvas = true.

(** The arrays a drawing tick fills (lines 75-83). *)
Definition tick_dataArray (analyser : AnalyserNode) (win : AudioWindow) :=
  getByteTimeDomainData win (Uint8Array (frequencyBinCount analyser)).

Definition tick_frequencyData (analyser : AnalyserNode) (win : AudioWindow) :=
  getByteFrequencyData win (Uint8Array (frequencyBinCount analyser)).

(** ** What the component renders (lines 146-196) *)

(** [Math.round]: the nearest integer, halves rounded up. *)
Definition Math_round (x : Q) : Z := Qfloor (x + 0.5)%Q.

(** The two captions of the button (line 188). *)
Inductive ButtonLabel : Type :=
| LabelStop
| LabelShout.

(** The two handlers the button can be given (line 181). *)
Inductive ButtonHandler : Type :=
| HandlerStop
| HandlerStart.

(** The parts of the rendered tree that depend on state: the two
    percentage readouts (lines 157, 170), the widths of the two bars in
    percent (lines 162, 175), and the button. *)
Record View : Type := mkView {
  volumeReadout : Z;
  volumeBarWidth : Q;
  pitchReadout : Z;
  pitchBarWidth : Q;
  buttonHandler : ButtonHandler;
  buttonLabel : ButtonLabel
}.

Definition render_view (s : State) : View :=
  mkView (Math_round (volume s)) (volume s)
    (Math_round (pitch s)) (pitch s)
    (if isListening s then HandlerStop else HandlerStart)
    (if isListening s then LabelStop else LabelShout).

(** Running the handler a view carries; [onClick] is [run_handler] of the
    rendered handler. *)
Definition run_handler (h : ButtonHandler) (s : State) : State :=
  match h with
  | HandlerStop => stopListening s
  | HandlerStart => startListening_request s
  end.

(** ** Predicates on commands and states *)

(** The command assigns [strokeStyle]. *)
Definition is_stroke_style (c : DrawCmd) : bool :=
  match c with
  | StrokeStyleHsl _ _ _ => true
  | _ => false
  end.

(** Track [t] is open but belongs to no stream the component still
    refers to. *)
Definition leaked (t : nat) (s : State) : Prop :=
  In t (liveTracks s)
  /\ forall stream, mediaStreamRef s = Some stream ->
       ~ In t (getTracks stream).

(** The published features are within the bounds the component can
    reach. *)
Definition features_in_range (s : State) : Prop :=
  (0 <= volume s <= 100)%Q /\ (0 <= pitch s <= 51.15)%Q.

(** Every open track was handed out by the browser earlier. *)
Definition tracks_known (s : State) : Prop :=
  forall t, In t (liveTracks s) -> (t < tracksCreated s)%nat.

(** The render loop has exactly one callback queued, the one whose handle
    [animationFrameRef] holds. *)
Definition single_loop (s : State) : Prop :=
  exists id, frameQueue s = [id] /\ animationFrameRef s = Some id.

(** The path of line 68 is not taken: it is not the case that analyser
    and canvas are there and the canvas gives no 2D context. *)
Definition context_available (s : State) : Prop :=
  analyserRef s = None \/ canvasRef s = None \/ renders s.

(** ** Concrete runs used as test inputs *)

Module Scenario.

(** A canvas element with the HTML default bitmap size, laid out in a
    768 by 256 box. *)
Definition canvas : Canvas := mkCanvas 300 150 768 256 true [].

(** The same element on a platform where [getContext("2d")] gives [null]. *)
Definition canvas_without_context : Canvas :=
  mkCanvas 300 150 768 256 false [].

(** A loud square wave whose spectrum peaks in bin 40. *)
Definition window : AudioWindow :=
  mkWindow (alternating 2048) (repeat x00 40 ++ [xc8] ++ repeat x00 983).

(** Digital silence: every sample at the midpoint, an empty spectrum. *)
Definition silence : AudioWindow :=
  mkWindow (repeat x80 2048) (repeat x00 1024).

Definition mounted : State := mount canvas initial.

(** Mounted, button clicked once, device granted with one audio track:
    the state in which the first tick runs, and the state after it. *)
Definition first_tick_input : State := session_ready 1 (onClick mounted).

Definition listening : State :=
  startListening_resume (Granted 1) window (onClick mounted).

(** The same run on the platform without a 2D context. *)
Definition listening_without_context : State :=
  startListening_resume (Granted 1) window
    (onClick (mount canvas_without_context initial)).

(** Button clicked twice before the first device request settles, both
    requests granted. *)
Definition double_started : State :=
  startListening_resume (Granted 1) window
    (startListening_resume (Granted 1) window (onClick (onClick mounted))).

End Scenario.

(** * Properties *)

(** ** Loops and arrays *)

Section Loops.
Context {A : Type}.

Lemma for_loop_snoc (k start : nat) (body : nat -> A -> A) (acc : A) :
  for_loop (S k) start body acc
  = body (start + k)%nat (for_loop k start body acc).
Proof.
  revert start acc.
  induction k as [|k IH]; intros start acc.
  - simpl. now rewrite Nat.add_0_r.
  - change (for_loop (S (S k)) start body acc)
      with (for_loop (S k) (S start) body (body start acc)).
    rewrite IH. simpl. now rewrite Nat.add_succ_r.
Qed.

(** Invariant rule: what holds before the loop and is kept by every
    iteration holds after it. *)
Lemma for_loop_invariant (P : nat -> A -> Prop) (n : nat)
  (body : nat -> A -> A) (acc : A) :
  P 0%nat acc ->
  (forall k a, (k < n)%nat -> P k a -> P (S k) (body k a)) ->
  P n (for_loop n 0 body acc).
Proof.
  intros H0 Hstep.
  assert (forall k, (k <= n)%nat -> P k (for_loop k 0 body acc)) as H.
  { induction k as [|k IH]; intros Hk.
    - exact H0.
    - rewrite for_loop_snoc. simpl. apply Hstep; [lia | apply IH; lia]. }
  apply H. lia.
Qed.
End Loops.

Lemma firstn_snoc {A : Type} (d : A) (l : list A) (k : nat) :
  (k < length l)%nat -> firstn (S k) l = firstn k l ++ [nth k l d].
Proof.
  revert k. induction l as [|a l IH]; intros k Hk; simpl in Hk.
  - lia.
  - destruct k as [|k].
    + reflexivity.
    + change (a :: firstn (S k) l = a :: (firstn k l ++ [nth k l d])).
      f_equal. apply IH. lia.
Qed.

Lemma u8_range (b : byte) : 0 <= u8 b <= 255.
Proof.
  unfold u8. pose proof (Byte.to_N_bounded b). lia.
Qed.

Lemma copy_into_length (window array : list byte) :
  length (copy_into window array) = length array.
Proof.
  revert window. induction array as [|a array IH]; intros [|w window];
    simpl; try reflexivity.
  now rewrite IH.
Qed.

Lemma Uint8Array_length (n : nat) : length (Uint8Array n) = n.
Proof. apply repeat_length. Qed.

(** ** Loudness *)

Module LoudnessFacts.
Import Features FeatureSpec.

Lemma deviation_sum_app (l r : list byte) :
  deviation_sum (l ++ r) = deviation_sum l + deviation_sum r.
Proof.
  unfold deviation_sum. induction l as [|a l IH]; simpl; [reflexivity|].
  rewrite IH. lia.
Qed.

Lemma sum_loop_prefix (data : list byte) (k : nat) :
  (k <= length data)%nat ->
  sum_loop k data = deviation_sum (firstn k data).
Proof.
  unfold sum_loop. induction k as [|k IH]; intros Hk.
  - reflexivity.
  - rewrite for_loop_snoc, IH by lia.
    rewrite (firstn_snoc x00 data k) by lia.
    rewrite deviation_sum_app. unfold deviation_sum, at_index. simpl. lia.
Qed.

Lemma sum_loop_spec (data : list byte) :
  sum_loop (length data) data = deviation_sum data.
Proof.
  rewrite sum_loop_prefix by lia. now rewrite firstn_all.
Qed.

(** Every sample deviates from the midpoint by between [lo] and [hi]. *)
Lemma deviation_sum_between (lo hi : Z) (data : list byte) :
  Forall (fun s => lo <= Z.abs (u8 s - 128) <= hi) data ->
  lo * Z.of_nat (length data) <= deviation_sum data
  <= hi * Z.of_nat (length data).
Proof.
  unfold deviation_sum.
  induction 1 as [|s data Hs _ IH]; simpl length; simpl fold_right.
  - lia.
  - rewrite Nat2Z.inj_succ. lia.
Qed.

Lemma deviation_sum_nonneg (data : list byte) : 0 <= deviation_sum data.
Proof.
  unfold deviation_sum. induction data as [|s data IH]; simpl; lia.
Qed.

Lemma inject_Z_le (a b : Z) : a <= b -> (inject_Z a <= inject_Z b)%Q.
Proof. intros H. rewrite <- Zle_Qle. exact H. Qed.

Lemma inject_Z_lt (a b : Z) : a < b -> (inject_Z a < inject_Z b)%Q.
Proof. intros H. rewrite <- Zlt_Qlt. exact H. Qed.

(** [sum / N * 4] as one fraction. *)
Lemma scaled_mean_ge (sum n : Z) (c : Q) :
  0 < n ->
  (c * inject_Z n <= inject_Z (4 * sum))%Q ->
  (c <= inject_Z sum / inject_Z n * 4)%Q.
Proof.
  intros Hn H.
  assert (0 < inject_Z n)%Q as Hq by exact (inject_Z_lt 0 n Hn).
  assert (inject_Z sum / inject_Z n * 4 == inject_Z (4 * sum) / inject_Z n)%Q
    as ->.
  { rewrite inject_Z_mult. field. intros E. rewrite E in Hq.
    now apply Qlt_irrefl in Hq. }
  apply Qle_shift_div_l; assumption.
Qed.

Lemma scaled_mean_nonneg (sum n : Z) :
  0 <= sum -> 0 < n -> (0 <= inject_Z sum / inject_Z n * 4)%Q.
Proof.
  intros Hs Hn. apply scaled_mean_ge; [exact Hn|].
  rewrite Qmult_0_l. apply (inject_Z_le 0 (4 * sum)). lia.
Qed.

Lemma nonempty_length {A : Type} (l : list A) :
  l <> [] -> 0 < Z.of_nat (length l).
Proof. destruct l; [congruence | simpl; lia]. Qed.

Lemma volume_range (data : list byte) :
  data <> [] ->
  (0 <= newVolume (length data) data <= 100)%Q.
Proof.
  intros Hne. unfold newVolume. split.
  - apply Q.min_glb; [|discriminate].
    apply scaled_mean_nonneg; [|now apply nonempty_length].
    rewrite sum_loop_spec. apply deviation_sum_nonneg.
  - apply Q.le_min_r.
Qed.

(** A buffer whose every sample is at least 25 away from the midpoint
    saturates the clamp. *)
Lemma volume_saturates (data : list byte) :
  data <> [] ->
  Forall (fun s => 25 <= Z.abs (u8 s - 128) <= 128) data ->
  (newVolume (length data) data == 100)%Q.
Proof.
  intros Hne Hall. unfold newVolume.
  apply Q.min_r. apply scaled_mean_ge; [now apply nonempty_length|].
  rewrite sum_loop_spec.
  pose proof (deviation_sum_between 25 128 data Hall) as [Hlo _].
  change 100%Q with (inject_Z 100). rewrite <- inject_Z_mult.
  apply inject_Z_le. lia.
Qed.

Lemma volume_silent (data : list byte) :
  data <> [] ->
  Forall (fun s => 0 <= Z.abs (u8 s - 128) <= 0) data ->
  (newVolume (length data) data == 0)%Q.
Proof.
  intros Hne Hall. unfold newVolume. rewrite sum_loop_spec.
  pose proof (deviation_sum_between 0 0 data Hall) as [Hlo Hhi].
  assert (deviation_sum data = 0) as -> by lia.
  rewrite Q.min_l.
  - unfold Qdiv. now rewrite !Qmult_0_l.
  - unfold Qdiv. rewrite !Qmult_0_l. discriminate.
Qed.

Lemma alternating_length (n : nat) : length (alternating n) = n.
Proof. unfold alternating. now rewrite length_map, length_seq. Qed.

Lemma alternating_loud (n : nat) :
  Forall (fun s => 25 <= Z.abs (u8 s - 128) <= 128) (alternating n).
Proof.
  unfold alternating. apply Forall_map, Forall_forall. intros i _.
  destruct (Nat.even i); vm_compute; split; discriminate.
Qed.

Lemma silence_quiet (n : nat) :
  Forall (fun s => 0 <= Z.abs (u8 s - 128) <= 0) (repeat x80 n).
Proof.
  apply Forall_forall. intros s Hs. apply repeat_spec in Hs. subst s.
  vm_compute. split; discriminate.
Qed.

End LoudnessFacts.

(** C1. For every time-domain buffer of N (at least one) unsigned 8-bit
    samples the loudness computed by lines 86-90 equals
    min((sum over i of |sample[i] - 128|) / N * 4, 100); it lies in
    [0, 100]; an all-128 buffer gives 0 and an alternating 0/255 buffer
    gives the clamp value 100. *)
Theorem loudness_is_clamped_scaled_mean_deviation (data : list byte) :
  data <> [] ->
  let N := length data in
  Features.newVolume N data = FeatureSpec.loudness data
  /\ (0 <= Features.newVolume N data <= 100)%Q
  /\ (data = repeat x80 N -> (Features.newVolume N data == 0)%Q)
  /\ (data = alternating N -> (Features.newVolume N data == 100)%Q).
Proof.
  intros Hne N. subst N. repeat split.
  - unfold Features.newVolume, FeatureSpec.loudness.
    now rewrite LoudnessFacts.sum_loop_spec.
  - now apply LoudnessFacts.volume_range.
  - now apply LoudnessFacts.volume_range.
  - intros E. apply LoudnessFacts.volume_silent; [exact Hne|].
    rewrite E. apply LoudnessFacts.silence_quiet.
  - intros E. apply LoudnessFacts.volume_saturates; [exact Hne|].
    rewrite E. apply LoudnessFacts.alternating_loud.
Qed.

Lemma loudness_is_clamped_scaled_mean_deviation_witness :
  [x00; xff; x00; xff] <> []
  /\ Features.newVolume 4 [x00; xff; x00; xff]
     = FeatureSpec.loudness [x00; xff; x00; xff]
  /\ (Features.newVolume 4 [x00; xff; x00; xff] == 100)%Q.
Proof.
  assert ([x00; xff; x00; xff] <> []) as Hne by discriminate.
  pose proof (loudness_is_clamped_scaled_mean_deviation
                [x00; xff; x00; xff] Hne) as H.
  simpl in H. destruct H as (Heq & _ & _ & Halt).
  split; [exact Hne|]. split; [exact Heq|]. apply Halt. reflexivity.
Defined.

(** ** Pitch proxy *)

Module PitchFacts.
Import Features FeatureSpec.

Lemma max_magnitude_nonneg (l : list byte) : 0 <= max_magnitude l.
Proof. unfold max_magnitude. induction l as [|b l IH]; simpl; lia. Qed.

Lemma max_magnitude_snoc (l : list byte) (b : byte) :
  max_magnitude (l ++ [b]) = Z.max (max_magnitude l) (u8 b).
Proof.
  unfold max_magnitude. induction l as [|a l IH]; simpl.
  - pose proof (u8_range b). lia.
  - rewrite IH. lia.
Qed.

Lemma max_magnitude_upper (l : list byte) (x : byte) :
  In x l -> u8 x <= max_magnitude l.
Proof.
  unfold max_magnitude. induction l as [|a l IH]; simpl; intros Hin.
  - contradiction.
  - destruct Hin as [->|Hin]; [lia | specialize (IH Hin); lia].
Qed.

(** The maximum of a non-empty spectrum is attained. *)
Lemma first_index_of_max_lt (l : list byte) :
  l <> [] -> (first_index_of (max_magnitude l) l < length l)%nat.
Proof.
  induction l as [|b l IH]; intros Hne; [congruence|].
  change (max_magnitude (b :: l)) with (Z.max (u8 b) (max_magnitude l)).
  simpl. destruct (Z.eqb_spec (u8 b) (Z.max (u8 b) (max_magnitude l)))
    as [E|E]; [lia|].
  assert (Z.max (u8 b) (max_magnitude l) = max_magnitude l) as -> by lia.
  destruct l as [|c l].
  - exfalso. apply E. change (max_magnitude []) with 0.
    pose proof (u8_range b). lia.
  - assert (c :: l <> []) as Hcl by discriminate.
    specialize (IH Hcl). lia.
Qed.

Lemma first_index_of_app_found (m : Z) (l r : list byte) :
  (first_index_of m l < length l)%nat ->
  first_index_of m (l ++ r) = first_index_of m l.
Proof.
  induction l as [|b l IH]; simpl; intros H; [lia|].
  destruct (u8 b =? m); [reflexivity|]. f_equal. apply IH. lia.
Qed.

Lemma first_index_of_app_missing (m : Z) (l r : list byte) :
  (forall x, In x l -> u8 x <> m) ->
  first_index_of m (l ++ r) = (length l + first_index_of m r)%nat.
Proof.
  induction l as [|b l IH]; simpl; intros H; [reflexivity|].
  destruct (Z.eqb_spec (u8 b) m) as [E|_].
  - exfalso. apply (H b); auto.
  - f_equal. apply IH. intros x Hx. apply H. now right.
Qed.

(** State of the scan after [k] iterations. *)
Lemma max_loop_prefix (fd : list byte) (k : nat) :
  (k <= length fd)%nat ->
  for_loop k 0
    (fun i st =>
       if at_index fd i >? fst st then (at_index fd i, i) else st)
    (0, 0%nat)
  = (max_magnitude (firstn k fd),
     first_index_of (max_magnitude (firstn k fd)) (firstn k fd)).
Proof.
  induction k as [|k IH]; intros Hk; [reflexivity|].
  rewrite for_loop_snoc, IH by lia.
  rewrite (firstn_snoc x00 fd k) by lia.
  set (pre := firstn k fd).
  assert (length pre = k) as Hlen by (apply firstn_length_le; lia).
  set (b := nth k fd x00).
  rewrite max_magnitude_snoc.
  cbn [Nat.add fst]. unfold at_index. fold b.
  pose proof (max_magnitude_nonneg pre) as Hnn.
  pose proof (u8_range b) as Hb.
  destruct (Z.gtb_spec (u8 b) (max_magnitude pre)) as [Hgt|Hle].
  - rewrite Z.max_r by lia. f_equal.
    rewrite first_index_of_app_missing.
    + simpl. rewrite Z.eqb_refl. lia.
    + intros x Hx. pose proof (max_magnitude_upper pre x Hx). lia.
  - rewrite Z.max_l by lia. f_equal.
    destruct pre as [|c pre'] eqn:Epre.
    + simpl in *. subst k.
      change (max_magnitude []) with 0 in *.
      assert (u8 b = 0) as -> by lia. reflexivity.
    + symmetry. apply first_index_of_app_found.
      apply first_index_of_max_lt. discriminate.
Qed.

Lemma max_loop_spec (fd : list byte) :
  max_loop fd = (max_magnitude fd, dominant_bin fd).
Proof.
  unfold max_loop. rewrite max_loop_prefix by lia.
  now rewrite firstn_all.
Qed.

Lemma maxIndex_spec (fd : list byte) : maxIndex fd = dominant_bin fd.
Proof. unfold maxIndex. now rewrite max_loop_spec. Qed.

Lemma maxIndex_lt (fd : list byte) :
  fd <> [] -> (maxIndex fd < length fd)%nat.
Proof.
  intros H. rewrite maxIndex_spec. now apply first_index_of_max_lt.
Qed.

Lemma maxIndex_le (fd : list byte) : (maxIndex fd <= length fd)%nat.
Proof.
  destruct fd as [|b fd]; [vm_compute; lia|].
  apply Nat.lt_le_incl, maxIndex_lt. discriminate.
Qed.

(** The dominant bin holds the maximum, and every earlier bin is strictly
    smaller: ties resolve to the lowest index. *)
Lemma first_index_of_before (m : Z) (l : list byte) (j : nat) :
  (j < first_index_of m l)%nat -> at_index l j <> m.
Proof.
  revert j. induction l as [|b l IH]; simpl; intros j Hj; [lia|].
  destruct (Z.eqb_spec (u8 b) m) as [E|E]; [lia|].
  destruct j as [|j]; [exact E|].
  apply IH. lia.
Qed.

Lemma first_index_of_hit (m : Z) (l : list byte) :
  (first_index_of m l < length l)%nat ->
  at_index l (first_index_of m l) = m.
Proof.
  induction l as [|b l IH]; simpl; intros H; [lia|].
  destruct (Z.eqb_spec (u8 b) m) as [E|E]; [exact E|].
  apply IH. lia.
Qed.

Lemma pitch_range (fd : list byte) : (0 <= normalizedPitch fd <= 100)%Q.
Proof.
  unfold normalizedPitch. split.
  - apply Q.min_glb; [|discriminate].
    apply Qle_shift_div_l; [reflexivity|].
    rewrite Qmult_0_l. apply (LoudnessFacts.inject_Z_le 0). lia.
  - apply Q.le_min_r.
Qed.

Lemma all_zero_max (n : nat) : max_magnitude (repeat x00 n) = 0.
Proof.
  unfold max_magnitude. induction n as [|n IH]; simpl; [reflexivity|].
  rewrite IH. reflexivity.
Qed.

Lemma all_zero_maxIndex (n : nat) : maxIndex (repeat x00 n) = 0%nat.
Proof.
  rewrite maxIndex_spec. unfold dominant_bin. rewrite all_zero_max.
  destruct n; reflexivity.
Qed.

End PitchFacts.

(** C2. For every spectrum the scan of lines 94-101 returns the first
    index holding the maximum magnitude (in a non-empty spectrum no bin
    exceeds the dominant one and every earlier bin is strictly smaller);
    [50,50,30] resolves to index 0; the pitch proxy is
    min(maxIndex / 20, 100), is 0 for an all-zero spectrum and always lies
    in [0, 100]. *)
Theorem pitch_proxy_is_first_maximum (frequencyData : list byte) :
  Features.maxIndex frequencyData = FeatureSpec.dominant_bin frequencyData
  /\ (frequencyData <> [] ->
      (Features.maxIndex frequencyData < length frequencyData)%nat
      /\ at_index frequencyData (Features.maxIndex frequencyData)
         = FeatureSpec.max_magnitude frequencyData
      /\ (forall j, (j < length frequencyData)%nat ->
            at_index frequencyData j
            <= at_index frequencyData (Features.maxIndex frequencyData))
      /\ (forall j, (j < Features.maxIndex frequencyData)%nat ->
            at_index frequencyData j
            < at_index frequencyData (Features.maxIndex frequencyData)))
  /\ Features.maxIndex [x32; x32; x1e] = 0%nat
  /\ Features.normalizedPitch frequencyData
     = FeatureSpec.pitchProxy frequencyData
  /\ (forall n, (Features.normalizedPitch (repeat x00 n) == 0)%Q)
  /\ (0 <= Features.normalizedPitch frequencyData <= 100)%Q.
Proof.
  pose proof (PitchFacts.maxIndex_spec frequencyData) as Hspec.
  split; [exact Hspec|]. split; [|split; [|split; [|split]]].
  - intros Hne.
    pose proof (PitchFacts.maxIndex_lt frequencyData Hne) as Hlt.
    assert (at_index frequencyData (Features.maxIndex frequencyData)
            = FeatureSpec.max_magnitude frequencyData) as Hhit.
    { rewrite Hspec. apply PitchFacts.first_index_of_hit.
      now apply PitchFacts.first_index_of_max_lt. }
    assert (forall j, (j < length frequencyData)%nat ->
              at_index frequencyData j
              <= FeatureSpec.max_magnitude frequencyData) as Hupper.
    { intros j Hj. apply PitchFacts.max_magnitude_upper.
      now apply nth_In. }
    repeat split.
    + exact Hlt.
    + exact Hhit.
    + intros j Hj. rewrite Hhit. now apply Hupper.
    + intros j Hj. rewrite Hhit.
      assert (at_index frequencyData j
              <> FeatureSpec.max_magnitude frequencyData) as Hneq.
      { apply PitchFacts.first_index_of_before.
        rewrite Hspec in Hj. exact Hj. }
      specialize (Hupper j ltac:(lia)). lia.
  - reflexivity.
  - unfold Features.normalizedPitch, FeatureSpec.pitchProxy.
    now rewrite Hspec.
  - intros n. unfold Features.normalizedPitch.
    rewrite PitchFacts.all_zero_maxIndex. reflexivity.
  - apply PitchFacts.pitch_range.
Qed.

(** ** One run of the animation-frame callback *)

Module TickFacts.

(** What a drawing run does, with the loops named. *)
Lemma updateWaveform_draws (win : AudioWindow) (s : State)
  (analyser : AnalyserNode) (canvas : Canvas) :
  analyserRef s = Some analyser ->
  canvasRef s = Some canvas ->
  context2d canvas = true ->
  let N := frequencyBinCount analyser in
  let dataArray := tick_dataArray analyser win in
  let v := Features.newVolume N dataArray in
  let p := Features.normalizedPitch (tick_frequencyData analyser win) in
  updateWaveform win s
  = schedule_next
      (set_canvasRef
         (Some (mkCanvas (clientWidth canvas) (clientHeight canvas)
                  (clientWidth canvas) (clientHeight canvas) true
                  (commands canvas
                   ++ Render.draw (clientWidth canvas) (clientHeight canvas)
                        N dataArray v p)))
         (set_pitch p (set_volume v s))).
Proof.
  intros Ha Hc Hctx. unfold updateWaveform. rewrite Ha, Hc, Hctx.
  reflexivity.
Qed.

Lemma updateWaveform_no_context (win : AudioWindow) (s : State)
  (analyser : AnalyserNode) (canvas : Canvas) :
  analyserRef s = Some analyser ->
  canvasRef s = Some canvas ->
  context2d canvas = false ->
  updateWaveform win s = s.
Proof.
  intros Ha Hc Hctx. unfold updateWaveform. now rewrite Ha, Hc, Hctx.
Qed.

Lemma updateWaveform_not_ready (win : AudioWindow) (s : State) :
  analyserRef s = None \/ canvasRef s = None ->
  updateWaveform win s = schedule_next s.
Proof.
  unfold updateWaveform. intros [H|H]; rewrite H; [reflexivity|].
  now destruct (analyserRef s).
Qed.

Lemma tick_dataArray_length (analyser : AnalyserNode) (win : AudioWindow) :
  length (tick_dataArray analyser win) = frequencyBinCount analyser.
Proof.
  unfold tick_dataArray, getByteTimeDomainData.
  now rewrite copy_into_length, Uint8Array_length.
Qed.

Lemma tick_frequencyData_length (analyser : AnalyserNode)
  (win : AudioWindow) :
  length (tick_frequencyData analyser win) = frequencyBinCount analyser.
Proof.
  unfold tick_frequencyData, getByteFrequencyData.
  now rewrite copy_into_length, Uint8Array_length.
Qed.

(** The polyline after [k] iterations of lines 120-131. *)
Lemma path_loop_vertices (N : nat) (data : list byte) (w h : Z) (af : Q) :
  let sliceWidth := (inject_Z w / inject_Z (Z.of_nat N))%Q in
  let r := Render.path_loop N data (inject_Z h) sliceWidth af in
  (fst r == inject_Z (Z.of_nat N) * sliceWidth)%Q
  /\ length (snd r) = N
  /\ forall i, (i < N)%nat ->
       Render.vertex_at (Nat.eqb i 0) (Render.spec_x w N i)
         (Render.spec_y h data af i) (nth i (snd r) Stroke).
Proof.
  intros sliceWidth r. subst r. unfold Render.path_loop.
  apply (for_loop_invariant
           (fun k st =>
              (fst st == inject_Z (Z.of_nat k) * sliceWidth)%Q
              /\ length (snd st) = k
              /\ forall i, (i < k)%nat ->
                   Render.vertex_at (Nat.eqb i 0) (Render.spec_x w N i)
                     (Render.spec_y h data af i) (nth i (snd st) Stroke))).
  - cbn [fst snd length Z.of_nat].
    split; [ring | split; [reflexivity | intros i Hi; lia]].
  - intros k [x path] Hk (Hx & Hlen & Hvs). cbn [fst snd] in *.
    split; [|split].
    + rewrite Hx, Nat2Z.inj_succ, <- Z.add_1_r, inject_Z_plus. ring.
    + rewrite length_app, Hlen. simpl. lia.
    + intros i Hi. destruct (Nat.eq_dec i k) as [->|Hne].
      * rewrite app_nth2 by lia. rewrite Hlen, Nat.sub_diag.
        cbn [nth]. unfold Render.spec_x, Render.spec_y.
        fold sliceWidth.
        destruct (Nat.eqb k 0); simpl; (split; [reflexivity|]);
          (split; [exact Hx | field]).
      * rewrite app_nth1 by lia. apply Hvs. lia.
Qed.

(** A drawing tick publishes the loudness and pitch proxy of the arrays
    it has just read. *)
Lemma tick_publishes_features (win : AudioWindow) (s : State)
  (analyser : AnalyserNode) (canvas : Canvas) :
  analyserRef s = Some analyser ->
  canvasRef s = Some canvas ->
  context2d canvas = true ->
  volume (updateWaveform win s)
  = Features.newVolume (length (tick_dataArray analyser win))
      (tick_dataArray analyser win)
  /\ pitch (updateWaveform win s)
     = Features.normalizedPitch (tick_frequencyData analyser win).
Proof.
  intros Ha Hc Hctx.
  rewrite (updateWaveform_draws win s analyser canvas Ha Hc Hctx).
  rewrite tick_dataArray_length. split; reflexivity.
Qed.

End TickFacts.

(** C8. On every tick that draws, the factor that scales the polyline is
    (loudness/50) * (pitchProxy/50 + 0.5) of the loudness and pitch proxy
    that same tick publishes; 50 and 50 give 1.5, and loudness 0 gives 0
    whatever the pitch proxy. *)
Theorem amplitude_factor_scales_by_both_features (win : AudioWindow)
  (s : State) :
  renders s ->
  let s' := updateWaveform win s in
  (exists analyser canvas canvas',
     analyserRef s = Some analyser /\ canvasRef s = Some canvas
     /\ canvasRef s' = Some canvas'
     /\ let N := frequencyBinCount analyser in
        let h := inject_Z (clientHeight canvas) in
        let sliceWidth :=
          (inject_Z (clientWidth canvas) / inject_Z (Z.of_nat N))%Q in
        exists before after,
          commands canvas' =
          before
          ++ snd (Render.path_loop N (tick_dataArray analyser win) h
                    sliceWidth
                    ((volume s' / 50) * (pitch s' / 50 + 0.5))%Q)
          ++ after)
  /\ (forall loudness pitchProxy,
        Features.amplitudeFactor loudness pitchProxy
        = ((loudness / 50) * (pitchProxy / 50 + 0.5))%Q)
  /\ (Features.amplitudeFactor 50 50 == 1.5)%Q
  /\ (forall pitchProxy, (Features.amplitudeFactor 0 pitchProxy == 0)%Q).
Proof.
  intros (analyser & canvas & Ha & Hc & Hctx) s'.
  split; [|split; [|split]].
  - exists analyser, canvas. subst s'.
    rewrite (TickFacts.updateWaveform_draws win s analyser canvas Ha Hc Hctx).
    eexists. split; [exact Ha|]. split; [exact Hc|].
    split; [reflexivity|]. cbn zeta.
    eexists. eexists. cbn [commands]. unfold Render.draw.
    rewrite app_assoc. reflexivity.
  - reflexivity.
  - reflexivity.
  - intros p. unfold Features.amplitudeFactor, Qdiv.
    now rewrite !Qmult_0_l.
Qed.

(** ** Lifecycle *)

Module LifecycleFacts.

Ltac tick_cases s :=
  unfold updateWaveform;
  destruct (analyserRef s) as [?a|] eqn:?Ha;
  [ destruct (canvasRef s) as [c|]; [destruct (context2d c)|] | ];
  try reflexivity; try assumption.

Section TickFrame.
Variables (win : AudioWindow) (s : State).

Lemma tick_isListening :
  isListening (updateWaveform win s) = isListening s.
Proof. tick_cases s. Qed.

Lemma tick_audioContextRef :
  audioContextRef (updateWaveform win s) = audioContextRef s.
Proof. tick_cases s. Qed.

Lemma tick_analyserRef :
  analyserRef (updateWaveform win s) = analyserRef s.
Proof. tick_cases s. Qed.

Lemma tick_mediaStreamRef :
  mediaStreamRef (updateWaveform win s) = mediaStreamRef s.
Proof. tick_cases s. Qed.

Lemma tick_liveTracks :
  liveTracks (updateWaveform win s) = liveTracks s.
Proof. tick_cases s. Qed.

Lemma tick_pendingMedia :
  pendingMedia (updateWaveform win s) = pendingMedia s.
Proof. tick_cases s. Qed.

Lemma tick_consoleErrors :
  consoleErrors (updateWaveform win s) = consoleErrors s.
Proof. tick_cases s. Qed.

Lemma tick_tracksCreated :
  tracksCreated (updateWaveform win s) = tracksCreated s.
Proof. tick_cases s. Qed.

Lemma tick_contextsCreated :
  contextsCreated (updateWaveform win s) = contextsCreated s.
Proof. tick_cases s. Qed.

Lemma tick_keeps_rendering : renders s -> renders (updateWaveform win s).
Proof.
  intros (a & c & Ha & Hc & Hctx).
  rewrite (TickFacts.updateWaveform_draws win s a c Ha Hc Hctx).
  exists a. eexists. split; [exact Ha|]. split; reflexivity.
Qed.
End TickFrame.

Lemma resume_granted (n : nat) (win : AudioWindow) (s : State)
  (ctx : AudioContext) :
  audioContextRef s = Some ctx ->
  startListening_resume (Granted n) win s
  = updateWaveform win (session_ready n s).
Proof.
  intros H. unfold startListening_resume, session_ready, open_stream.
  cbn [audioContextRef set_mediaStreamRef set_tracksCreated set_liveTracks
       set_pendingMedia].
  now rewrite H.
Qed.

Lemma resume_rejected (win : AudioWindow) (s : State) :
  startListening_resume Rejected win s
  = console_error (set_pendingMedia (Nat.pred (pendingMedia s)) s).
Proof. reflexivity. Qed.

Lemma stop_tracks (tracks : list nat) (s : State) :
  fold_left (fun st track => track_stop track st) tracks s
  = set_liveTracks (without_tracks tracks (liveTracks s)) s.
Proof.
  unfold without_tracks. revert s.
  induction tracks as [|t tracks IH]; intros s.
  - now destruct s.
  - simpl. rewrite IH. reflexivity.
Qed.

Lemma without_tracks_In (tracks live : list nat) (t : nat) :
  In t (without_tracks tracks live) <-> In t live /\ ~ In t tracks.
Proof.
  unfold without_tracks. revert live.
  induction tracks as [|a tracks IH]; intros live; simpl.
  - tauto.
  - rewrite IH. split.
    + intros [Hin Hnot]. apply in_remove in Hin as [Hin Hne].
      split; [exact Hin|]. intros [E|E]; [congruence | contradiction].
    + intros [Hin Hnot]. split; [|tauto].
      apply in_in_remove; [|exact Hin]. intros E. apply Hnot. now left.
Qed.

(** [stopListening] field by field. *)
Lemma stopListening_eq (s : State) :
  stopListening s
  = mkState false 0%Q 0%Q (audioContextRef s) (analyserRef s) None None
      (canvasRef s)
      (match mediaStreamRef s with
       | Some stream => without_tracks (getTracks stream) (liveTracks s)
       | None => liveTracks s
       end)
      (tracksCreated s) (contextsCreated s)
      (match animationFrameRef s with
       | Some id => remove Pos.eq_dec id (frameQueue s)
       | None => frameQueue s
       end)
      (nextFrameId s) (pendingMedia s) (consoleErrors s).
Proof.
  unfold stopListening.
  destruct (mediaStreamRef s) as [stream|] eqn:Hm;
    [rewrite stop_tracks|];
    destruct s as [? ? ? ? ? ? frame ? ? ? ? ? ? ? ?]; cbn in Hm |- *;
    destruct frame; cbn; try rewrite Hm; reflexivity.
Qed.

End LifecycleFacts.

(** ** The concrete runs *)

Module ScenarioFacts.
Import LifecycleFacts.

Lemma first_tick_input_renders : renders Scenario.first_tick_input.
Proof.
  exists (mkAnalyser 2048), Scenario.canvas. repeat split; reflexivity.
Qed.

Lemma listening_eq :
  Scenario.listening
  = updateWaveform Scenario.window Scenario.first_tick_input.
Proof.
  unfold Scenario.listening, Scenario.first_tick_input.
  apply (resume_granted 1 Scenario.window (onClick Scenario.mounted)
           (mkAudioContext 0)).
  reflexivity.
Qed.

Lemma listening_reachable : reachable Scenario.listening.
Proof.
  unfold Scenario.listening.
  apply (reachable_step (onClick Scenario.mounted)).
  - apply (reachable_step Scenario.mounted); [|apply step_click].
    apply (reachable_step initial); [apply reachable_initial|].
    apply step_mount.
  - apply step_settle. vm_compute. lia.
Qed.

Lemma listening_analyser :
  analyserRef Scenario.listening = Some (mkAnalyser 2048).
Proof. rewrite listening_eq, tick_analyserRef. reflexivity. Qed.

Lemma listening_isListening : isListening Scenario.listening = true.
Proof. rewrite listening_eq, tick_isListening. reflexivity. Qed.

Lemma listening_liveTracks : liveTracks Scenario.listening = [0%nat].
Proof. rewrite listening_eq, tick_liveTracks. reflexivity. Qed.

(** The session started by one click has exactly one frame queued, the
    one [animationFrameRef] holds, and exactly the track of its stream
    live; stopping it leaves no frame queued and no track live. *)
Lemma listening_single_loop :
  frameQueue Scenario.listening = [1%positive]
  /\ animationFrameRef Scenario.listening = Some 1%positive
  /\ mediaStreamRef Scenario.listening = Some (mkStream [0%nat]).
Proof.
  rewrite listening_eq.
  rewrite (TickFacts.updateWaveform_draws Scenario.window
             Scenario.first_tick_input (mkAnalyser 2048) Scenario.canvas
             eq_refl eq_refl eq_refl).
  repeat split.
Qed.

Lemma stop_after_single_start :
  frameQueue (stopListening Scenario.listening) = []
  /\ liveTracks (stopListening Scenario.listening) = []
  /\ isListening (stopListening Scenario.listening) = false.
Proof.
  destruct listening_single_loop as (Hq & Hf & Hm).
  rewrite stopListening_eq. cbn [frameQueue liveTracks isListening].
  rewrite Hq, Hf, Hm, listening_liveTracks. repeat split.
Qed.

Lemma listening_renders : renders Scenario.listening.
Proof.
  rewrite listening_eq. apply tick_keeps_rendering.
  apply first_tick_input_renders.
Qed.

End ScenarioFacts.

Lemma amplitude_factor_scales_by_both_features_witness :
  renders Scenario.first_tick_input
  /\ exists canvas',
       canvasRef (updateWaveform Scenario.window Scenario.first_tick_input)
       = Some canvas'.
Proof.
  split; [exact ScenarioFacts.first_tick_input_renders|].
  destruct (amplitude_factor_scales_by_both_features Scenario.window
              Scenario.first_tick_input ScenarioFacts.first_tick_input_renders)
    as [(analyser & canvas & canvas' & _ & _ & Hc & _) _].
  exists canvas'. exact Hc.
Defined.

(** C9. On every tick that draws, over the N samples read that tick, the
    stroked path has one vertex per sample index i in [0, N) at
    x = i * (width / N) and
    y = height/2 + ((sample[i]/128 - 1) * amplitudeFactor) * (height/2)
    (the first by moveTo, the others by lineTo), the stroke colour is
    hsl(pitchProxy * 2, 100%, 50%), and the path ends with a line to
    (width, height/2) before it is stroked. *)
Theorem waveform_polyline_geometry (win : AudioWindow) (s : State) :
  renders s ->
  let s' := updateWaveform win s in
  exists analyser canvas canvas' path,
    analyserRef s = Some analyser /\ canvasRef s = Some canvas
    /\ canvasRef s' = Some canvas'
    /\ let N := frequencyBinCount analyser in
       let samples := tick_dataArray analyser win in
       let w := clientWidth canvas in
       let h := clientHeight canvas in
       let amplitudeFactor :=
         Features.amplitudeFactor (volume s') (pitch s') in
       length samples = N
       /\ width canvas' = w /\ height canvas' = h
       /\ commands canvas' =
          commands canvas
          ++ [FillStyleRgb 20 20 30; FillRect 0 0 (inject_Z w) (inject_Z h);
              LineWidth 3; StrokeStyleHsl (pitch s' * 2) 100 50; BeginPath]
          ++ path
          ++ [LineTo (inject_Z w) (inject_Z h / 2)%Q; Stroke]
       /\ length path = N
       /\ forall i, (i < N)%nat ->
            Render.vertex_at (Nat.eqb i 0) (Render.spec_x w N i)
              (Render.spec_y h samples amplitudeFactor i)
              (nth i path Stroke).
Proof.
  intros (analyser & canvas & Ha & Hc & Hctx) s'. subst s'.
  rewrite (TickFacts.updateWaveform_draws win s analyser canvas Ha Hc Hctx).
  set (N := frequencyBinCount analyser).
  set (samples := tick_dataArray analyser win).
  set (v := Features.newVolume N samples).
  set (p := Features.normalizedPitch (tick_frequencyData analyser win)).
  pose proof (TickFacts.path_loop_vertices N samples (clientWidth canvas)
                (clientHeight canvas) (Features.amplitudeFactor v p))
    as (_ & Hlen & Hvs).
  exists analyser, canvas. eexists. eexists.
  split; [exact Ha|]. split; [exact Hc|]. split; [reflexivity|].
  cbn zeta. cbn [width height commands].
  split; [apply TickFacts.tick_dataArray_length|].
  split; [reflexivity|]. split; [reflexivity|].
  split; [reflexivity|]. split; [exact Hlen | exact Hvs].
Qed.

Lemma waveform_polyline_geometry_witness :
  renders Scenario.first_tick_input
  /\ exists canvas',
       canvasRef (updateWaveform Scenario.window Scenario.first_tick_input)
       = Some canvas'
       /\ width canvas' = 768 /\ height canvas' = 256.
Proof.
  split; [exact ScenarioFacts.first_tick_input_renders|].
  destruct (waveform_polyline_geometry Scenario.window
              Scenario.first_tick_input ScenarioFacts.first_tick_input_renders)
    as (analyser & canvas & canvas' & path & _ & Hc & Hc' & H).
  cbn zeta in H. destruct H as (_ & Hw & Hh & _).
  assert (canvas = Scenario.canvas) as E.
  { assert (canvasRef Scenario.first_tick_input = Some Scenario.canvas) as H0
      by reflexivity.
    rewrite H0 in Hc. now injection Hc. }
  subst canvas. exists canvas'. split; [exact Hc'|]. split; assumption.
Defined.

(** ** What holds in every reachable state *)

Module Invariants.
Import LifecycleFacts.

Lemma resume_analyserRef (outcome : MediaOutcome) (win : AudioWindow)
  (s : State) :
  analyserRef (startListening_resume outcome win s) = analyserRef s
  \/ analyserRef (startListening_resume outcome win s)
     = Some (mkAnalyser 2048).
Proof.
  destruct outcome as [n|]; [|left; reflexivity].
  destruct (audioContextRef s) as [ctx|] eqn:Hctx.
  - right. rewrite (resume_granted n win s ctx Hctx), tick_analyserRef.
    reflexivity.
  - left. unfold startListening_resume, open_stream.
    cbn [audioContextRef set_mediaStreamRef set_tracksCreated set_liveTracks
         set_pendingMedia].
    rewrite Hctx. reflexivity.
Qed.

(** Only line 27 ever configures an analyser. *)
Lemma step_analyserRef (s s' : State) :
  step s s' ->
  analyserRef s' = analyserRef s \/ analyserRef s' = Some (mkAnalyser 2048).
Proof.
  intros Hstep. destruct Hstep as [s c|s w h|s|s outcome win _|s id win _|s].
  - left. reflexivity.
  - left. unfold resize. now destruct (canvasRef s).
  - left. unfold onClick. destruct (isListening s).
    + now rewrite stopListening_eq.
    + reflexivity.
  - apply resume_analyserRef.
  - left. unfold run_frame. now rewrite tick_analyserRef.
  - left. unfold unmount. now rewrite stopListening_eq.
Qed.

Lemma analyser_fftSize (s : State) :
  reachable s ->
  forall analyser, analyserRef s = Some analyser -> fftSize analyser = 2048%nat.
Proof.
  induction 1 as [|s s' _ IH Hstep]; intros analyser Ha.
  - discriminate.
  - destruct (step_analyserRef s s' Hstep) as [E|E]; rewrite E in Ha.
    + now apply IH.
    + now injection Ha as <-.
Qed.

Lemma bins_of_2048 (analyser : AnalyserNode) :
  fftSize analyser = 2048%nat -> frequencyBinCount analyser = 1024%nat.
Proof. unfold frequencyBinCount. intros ->. reflexivity. Qed.

End Invariants.

(** C3, as the code has it.  On every tick of a reachable state the
    analyser is configured with fftSize 2048, and both arrays the tick
    reads into, the time-domain one and the frequency-domain one, have
    length 1024 (frequencyBinCount, half of fftSize). *)
Theorem tick_buffers_have_1024_entries (s : State) (win : AudioWindow)
  (analyser : AnalyserNode) :
  reachable s ->
  analyserRef s = Some analyser ->
  fftSize analyser = 2048%nat
  /\ length (tick_dataArray analyser win) = 1024%nat
  /\ length (tick_frequencyData analyser win) = 1024%nat.
Proof.
  intros Hr Ha.
  pose proof (Invariants.analyser_fftSize s Hr analyser Ha) as Hfft.
  pose proof (Invariants.bins_of_2048 analyser Hfft) as Hbins.
  split; [exact Hfft|].
  rewrite TickFacts.tick_dataArray_length,
    TickFacts.tick_frequencyData_length, Hbins.
  split; reflexivity.
Qed.

Lemma tick_buffers_have_1024_entries_witness :
  reachable Scenario.listening
  /\ analyserRef Scenario.listening = Some (mkAnalyser 2048)
  /\ length (tick_dataArray (mkAnalyser 2048) Scenario.window) = 1024%nat.
Proof.
  split; [exact ScenarioFacts.listening_reachable|].
  split; [exact ScenarioFacts.listening_analyser|].
  apply (tick_buffers_have_1024_entries Scenario.listening Scenario.window
           (mkAnalyser 2048) ScenarioFacts.listening_reachable
           ScenarioFacts.listening_analyser).
Defined.

(** C3 as stated fails: in the listening state reached by one click and
    one granted request, the time-domain array a tick reads into has 1024
    entries, not 2048. *)
Lemma time_domain_buffer_is_not_2048 :
  reachable Scenario.listening
  /\ renders Scenario.listening
  /\ analyserRef Scenario.listening = Some (mkAnalyser 2048)
  /\ length (tick_dataArray (mkAnalyser 2048) Scenario.window) = 1024%nat
  /\ length (tick_dataArray (mkAnalyser 2048) Scenario.window) <> 2048%nat.
Proof.
  split; [exact ScenarioFacts.listening_reachable|].
  split; [exact ScenarioFacts.listening_renders|].
  split; [exact ScenarioFacts.listening_analyser|].
  rewrite TickFacts.tick_dataArray_length.
  split; [reflexivity|]. vm_compute. lia.
Qed.

(** C10. In every reachable state the spectrum a tick scans has 1024
    bins, so the dominant bin is at most 1023, maxIndex / 20 stays below
    100, the pitch proxy is maxIndex / 20 itself and never exceeds
    1023/20 = 51.15; a drawing tick publishes exactly that value. *)
Theorem pitch_clamp_is_never_active (s : State) (win : AudioWindow)
  (analyser : AnalyserNode) :
  reachable s ->
  analyserRef s = Some analyser ->
  let frequencyData := tick_frequencyData analyser win in
  let maxIndex := Features.maxIndex frequencyData in
  length frequencyData = 1024%nat
  /\ (maxIndex <= 1023)%nat
  /\ (inject_Z (Z.of_nat maxIndex) / 20 < 100)%Q
  /\ (Features.normalizedPitch frequencyData
      == inject_Z (Z.of_nat maxIndex) / 20)%Q
  /\ (Features.normalizedPitch frequencyData <= 51.15)%Q
  /\ (renders s ->
      pitch (updateWaveform win s) = Features.normalizedPitch frequencyData).
Proof.
  intros Hr Ha frequencyData maxIndex.
  pose proof (Invariants.analyser_fftSize s Hr analyser Ha) as Hfft.
  pose proof (Invariants.bins_of_2048 analyser Hfft) as Hbins.
  assert (length frequencyData = 1024%nat) as Hlen.
  { subst frequencyData. now rewrite TickFacts.tick_frequencyData_length. }
  assert (maxIndex <= 1023)%nat as Hmax.
  { assert (frequencyData <> []) as Hne
      by (intros E; rewrite E in Hlen; discriminate).
    pose proof (PitchFacts.maxIndex_lt frequencyData Hne) as Hlt.
    fold maxIndex in Hlt. rewrite Hlen in Hlt. lia. }
  assert (inject_Z (Z.of_nat maxIndex) / 20 <= 51.15)%Q as Hle.
  { apply Qle_shift_div_r; [reflexivity|].
    apply Qle_trans with (inject_Z 1023).
    - apply LoudnessFacts.inject_Z_le. lia.
    - vm_compute. discriminate. }
  assert (inject_Z (Z.of_nat maxIndex) / 20 < 100)%Q as Hlt100.
  { eapply Qle_lt_trans; [exact Hle | reflexivity]. }
  split; [exact Hlen|]. split; [exact Hmax|]. split; [exact Hlt100|].
  assert (Features.normalizedPitch frequencyData
          == inject_Z (Z.of_nat maxIndex) / 20)%Q as Heq.
  { unfold Features.normalizedPitch. fold maxIndex.
    apply Q.min_l. now apply Qlt_le_weak. }
  split; [exact Heq|]. split; [now rewrite Heq|].
  intros (a & c & Ha' & Hc & Hctx).
  rewrite Ha in Ha'. injection Ha' as <-.
  rewrite (TickFacts.updateWaveform_draws win s analyser c Ha Hc Hctx).
  reflexivity.
Qed.

Lemma pitch_clamp_is_never_active_witness :
  reachable Scenario.listening
  /\ analyserRef Scenario.listening = Some (mkAnalyser 2048)
  /\ (Features.normalizedPitch
        (tick_frequencyData (mkAnalyser 2048) Scenario.window) <= 51.15)%Q.
Proof.
  split; [exact ScenarioFacts.listening_reachable|].
  split; [exact ScenarioFacts.listening_analyser|].
  apply (pitch_clamp_is_never_active Scenario.listening Scenario.window
           (mkAnalyser 2048) ScenarioFacts.listening_reachable
           ScenarioFacts.listening_analyser).
Defined.

(** ** Rescheduling *)

(** Both the not-ready path (lines 59-62) and the drawing path (line 136)
    queue the next run of the callback. *)
Lemma tick_schedules_when_not_ready_or_drawn (win : AudioWindow) (s : State) :
  analyserRef s = None \/ canvasRef s = None \/ renders s ->
  frameQueue (updateWaveform win s) = frameQueue s ++ [nextFrameId s]
  /\ animationFrameRef (updateWaveform win s) = Some (nextFrameId s).
Proof.
  intros [H|[H|(a & c & Ha & Hc & Hctx)]].
  - rewrite TickFacts.updateWaveform_not_ready by now left.
    split; reflexivity.
  - rewrite TickFacts.updateWaveform_not_ready by now right.
    split; reflexivity.
  - rewrite (TickFacts.updateWaveform_draws win s a c Ha Hc Hctx).
    split; reflexivity.
Qed.

(** C4 fails on the path of line 68.  After one click and one granted
    request on a platform whose canvas gives no 2D context, the component
    is listening, yet the first call of the callback returned without
    queueing a frame: nothing is scheduled, and a run of the callback in
    that state changes nothing. *)
Theorem tick_without_2d_context_schedules_nothing :
  let s := Scenario.listening_without_context in
  reachable s
  /\ isListening s = true
  /\ frameQueue s = []
  /\ animationFrameRef s = None
  /\ forall win, updateWaveform win s = s.
Proof.
  cbn zeta.
  split.
  { unfold Scenario.listening_without_context.
    eapply reachable_step; [|apply step_settle; vm_compute; lia].
    eapply reachable_step; [|apply step_click].
    eapply reachable_step; [apply reachable_initial | apply step_mount]. }
  split; [reflexivity|]. split; [reflexivity|]. split; [reflexivity|].
  intros win.
  apply (TickFacts.updateWaveform_no_context win _ (mkAnalyser 2048)
           Scenario.canvas_without_context); reflexivity.
Qed.

(** ** Starting *)

Module StartFacts.
Import LifecycleFacts.

Lemma resume_granted_liveTracks (n : nat) (win : AudioWindow) (s : State) :
  liveTracks (startListening_resume (Granted n) win s)
  = liveTracks s ++ seq (tracksCreated s) n.
Proof.
  destruct (audioContextRef s) as [ctx|] eqn:Hctx.
  - rewrite (resume_granted n win s ctx Hctx), tick_liveTracks. reflexivity.
  - unfold startListening_resume, open_stream.
    cbn [audioContextRef set_mediaStreamRef set_tracksCreated set_liveTracks
         set_pendingMedia].
    rewrite Hctx. reflexivity.
Qed.

Lemma request_liveTracks (s : State) :
  liveTracks (startListening_request s) = liveTracks s.
Proof. reflexivity. Qed.

Lemma request_tracksCreated (s : State) :
  tracksCreated (startListening_request s) = tracksCreated s.
Proof. reflexivity. Qed.

Lemma start_granted_handleCount (n : nat) (win : AudioWindow) (s : State) :
  handleCount (startListening (Granted n) win s) = (handleCount s + n)%nat.
Proof.
  unfold handleCount, startListening.
  rewrite resume_granted_liveTracks, request_liveTracks.
  now rewrite length_app, length_seq.
Qed.

Lemma start_granted_stream (n : nat) (win : AudioWindow) (s : State) :
  mediaStreamRef (startListening (Granted n) win s)
  = Some (mkStream (seq (tracksCreated s) n)).
Proof.
  unfold startListening.
  rewrite (resume_granted n win (startListening_request s)
             (mkAudioContext (contextsCreated s)) eq_refl).
  rewrite tick_mediaStreamRef.
  unfold session_ready, open_stream.
  cbn [mediaStreamRef set_isListening set_analyserRef set_mediaStreamRef
       tracksCreated set_pendingMedia].
  now rewrite request_tracksCreated.
Qed.

End StartFacts.

(** C5 as stated fails: [startListening] called in the listening state
    that holds one open track opens a second stream; the handle count
    becomes 2 and the first track, still live, is no longer referenced. *)
Lemma start_while_listening_opens_second_stream :
  isListening Scenario.listening = true
  /\ handleCount Scenario.listening = 1%nat
  /\ handleCount
       (startListening (Granted 1) Scenario.window Scenario.listening) = 2%nat
  /\ mediaStreamRef
       (startListening (Granted 1) Scenario.window Scenario.listening)
     = Some (mkStream [1%nat])
  /\ In 0%nat
       (liveTracks
          (startListening (Granted 1) Scenario.window Scenario.listening)).
Proof.
  assert (tracksCreated Scenario.listening = 1%nat) as Hcreated.
  { rewrite ScenarioFacts.listening_eq, LifecycleFacts.tick_tracksCreated.
    reflexivity. }
  split; [exact ScenarioFacts.listening_isListening|].
  split; [unfold handleCount; now rewrite ScenarioFacts.listening_liveTracks|].
  split.
  { rewrite StartFacts.start_granted_handleCount. unfold handleCount.
    now rewrite ScenarioFacts.listening_liveTracks. }
  split.
  { rewrite StartFacts.start_granted_stream, Hcreated. reflexivity. }
  unfold startListening.
  rewrite StartFacts.resume_granted_liveTracks, StartFacts.request_liveTracks.
  rewrite ScenarioFacts.listening_liveTracks. now left.
Qed.

(** The same state is reached through the button alone: two clicks before
    the first request settles start two sessions. *)
Lemma double_click_reaches_two_handles :
  reachable Scenario.double_started
  /\ handleCount Scenario.double_started = 2%nat.
Proof.
  split.
  - unfold Scenario.double_started.
    eapply reachable_step.
    + eapply reachable_step.
      * eapply reachable_step; [|apply step_click].
        eapply reachable_step; [|apply step_click].
        eapply reachable_step; [apply reachable_initial | apply step_mount].
      * apply step_settle. vm_compute. lia.
    + apply step_settle.
      rewrite (LifecycleFacts.resume_granted 1 Scenario.window
                 (onClick (onClick Scenario.mounted)) (mkAudioContext 1)
                 eq_refl).
      rewrite LifecycleFacts.tick_pendingMedia. vm_compute. lia.
  - unfold handleCount, Scenario.double_started.
    rewrite !StartFacts.resume_granted_liveTracks.
    rewrite !length_app, !length_seq. reflexivity.
Qed.

(** C5, as the code has it.  The button is the only gate: clicked while
    [isListening] it runs [stopListening], which opens nothing, keeps no
    track that was not live before and issues no device request;
    [startListening] itself has no guard, and a granted call adds the
    granted tracks to the open handles whatever the listening state. *)
Theorem start_is_gated_only_by_the_button (s : State) :
  isListening s = true ->
  onClick s = stopListening s
  /\ (forall t, In t (liveTracks (onClick s)) -> In t (liveTracks s))
  /\ pendingMedia (onClick s) = pendingMedia s
  /\ (forall n win,
        handleCount (startListening (Granted n) win s)
        = (handleCount s + n)%nat).
Proof.
  intros Hl.
  assert (onClick s = stopListening s) as E
    by (unfold onClick; now rewrite Hl).
  split; [exact E|]. rewrite E, LifecycleFacts.stopListening_eq.
  split; [|split].
  - cbn [liveTracks]. intros t Ht.
    destruct (mediaStreamRef s) as [stream|]; [|exact Ht].
    now apply LifecycleFacts.without_tracks_In in Ht.
  - reflexivity.
  - intros n win. apply StartFacts.start_granted_handleCount.
Qed.

Lemma start_is_gated_only_by_the_button_witness :
  isListening Scenario.listening = true
  /\ onClick Scenario.listening = stopListening Scenario.listening.
Proof.
  split; [exact ScenarioFacts.listening_isListening|].
  apply (start_is_gated_only_by_the_button Scenario.listening
           ScenarioFacts.listening_isListening).
Defined.

(** C6 as stated fails: after a rejected request on the freshly mounted
    component the listening state is still false and no track is open,
    but [audioContextRef], empty before the call, now holds the
    [AudioContext] that line 17 constructed. *)
Lemma rejected_start_keeps_audio_context :
  let s' := startListening Rejected Scenario.window Scenario.mounted in
  audioContextRef Scenario.mounted = None
  /\ isListening s' = false
  /\ liveTracks s' = []
  /\ audioContextRef s' = Some (mkAudioContext 0)
  /\ contextsCreated s' = 1%nat.
Proof. cbn zeta. repeat split. Qed.

(** C6, as the code has it.  When the device request is rejected,
    [startListening] leaves the listening state as it was (so it remains
    "not listening" when called from Idle), acquires no stream, no track
    and no analyser node, queues no frame and logs the failure; the
    [AudioContext] constructed before the request stays in
    [audioContextRef]. *)
Theorem rejected_start_holds_only_the_audio_context (win : AudioWindow)
  (s : State) :
  let s' := startListening Rejected win s in
  isListening s' = isListening s
  /\ mediaStreamRef s' = mediaStreamRef s
  /\ liveTracks s' = liveTracks s
  /\ analyserRef s' = analyserRef s
  /\ frameQueue s' = frameQueue s
  /\ pendingMedia s' = pendingMedia s
  /\ consoleErrors s' = S (consoleErrors s)
  /\ audioContextRef s' = Some (mkAudioContext (contextsCreated s))
  /\ contextsCreated s' = S (contextsCreated s).
Proof. cbn zeta. repeat split. Qed.

(** ** Stopping *)


(** * Further properties of the component *)

(** ** The render loop *)

(** X1. A tick that does not take the path of line 68 queues exactly one new
    callback, under the browser's next handle, and records that handle. *)
Theorem tick_queues_exactly_one_frame (win : AudioWindow) (s : State) :
  context_available s ->
  frameQueue (updateWaveform win s) = frameQueue s ++ [nextFrameId s]
  /\ animationFrameRef (updateWaveform win s) = Some (nextFrameId s)
  /\ nextFrameId (updateWaveform win s) = Pos.succ (nextFrameId s).
Proof.
  intros [H|[H|(a & c & Ha & Hc & Hctx)]].
  - rewrite TickFacts.updateWaveform_not_ready by now left.
    repeat split.
  - rewrite TickFacts.updateWaveform_not_ready by now right.
    repeat split.
  - rewrite (TickFacts.updateWaveform_draws win s a c Ha Hc Hctx).
    repeat split.
Qed.

Lemma tick_queues_exactly_one_frame_witness :
  context_available Scenario.first_tick_input
  /\ frameQueue (updateWaveform Scenario.window Scenario.first_tick_input)
     = [1%positive].
Proof.
  assert (context_available Scenario.first_tick_input) as H
    by (right; right; exact ScenarioFacts.first_tick_input_renders).
  split; [exact H|].
  destruct (tick_queues_exactly_one_frame Scenario.window
              Scenario.first_tick_input H) as (Hq & _ & _).
  rewrite Hq. reflexivity.
Defined.

Module LoopFacts.
Import LifecycleFacts.

Lemma tick_canvas_presence (win : AudioWindow) (s : State) :
  canvasRef s = None <-> canvasRef (updateWaveform win s) = None.
Proof.
  unfold updateWaveform.
  destruct (analyserRef s) as [a|];
    [destruct (canvasRef s) as [c|] eqn:Hc; [destruct (context2d c) eqn:Hx|]|].
  - cbn. split; discriminate.
  - rewrite Hc. tauto.
  - cbn. rewrite Hc. tauto.
  - cbn. tauto.
Qed.

Lemma tick_keeps_context_available (win : AudioWindow) (s : State) :
  context_available s -> context_available (updateWaveform win s).
Proof.
  intros [H|[H|H]].
  - left. now rewrite tick_analyserRef.
  - right; left. now apply tick_canvas_presence.
  - right; right. now apply tick_keeps_rendering.
Qed.

Lemma dequeue_keeps_context_available (q : list positive) (s : State) :
  context_available s -> context_available (set_frameQueue q s).
Proof.
  intros [H|[H|(a & c & Ha & Hc & Hctx)]].
  - now left.
  - right; now left.
  - right; right. now exists a, c.
Qed.

End LoopFacts.

(** X2. When exactly the registered callback is queued and the browser runs
    it, the tick leaves again exactly one callback queued and registered:
    the loop neither dies nor multiplies, as long as line 68 is not hit. *)
Theorem frame_run_keeps_single_loop (id : positive) (win : AudioWindow)
  (s : State) :
  frameQueue s = [id] ->
  animationFrameRef s = Some id ->
  context_available s ->
  single_loop (run_frame id win s)
  /\ frameQueue (run_frame id win s) = [nextFrameId s]
  /\ context_available (run_frame id win s).
Proof.
  intros Hq Hf Hav. unfold run_frame.
  set (s0 := set_frameQueue (remove Pos.eq_dec id (frameQueue s)) s).
  assert (context_available s0) as Hav0
    by now apply LoopFacts.dequeue_keeps_context_available.
  destruct (tick_schedules_when_not_ready_or_drawn win s0 Hav0)
    as (Hq' & Hf').
  assert (frameQueue s0 = []) as Hempty.
  { subst s0. cbn [frameQueue set_frameQueue]. rewrite Hq. simpl.
    destruct (Pos.eq_dec id id); [reflexivity | congruence]. }
  rewrite Hempty in Hq'. simpl in Hq'.
  split; [|split].
  - exists (nextFrameId s). split; [exact Hq' | exact Hf'].
  - exact Hq'.
  - now apply LoopFacts.tick_keeps_context_available.
Qed.

Lemma frame_run_keeps_single_loop_witness :
  frameQueue Scenario.listening = [1%positive]
  /\ animationFrameRef Scenario.listening = Some 1%positive
  /\ context_available Scenario.listening
  /\ single_loop (run_frame 1 Scenario.window Scenario.listening).
Proof.
  destruct ScenarioFacts.listening_single_loop as (Hq & Hf & _).
  assert (context_available Scenario.listening) as Hav
    by (right; right; exact ScenarioFacts.listening_renders).
  split; [exact Hq|]. split; [exact Hf|]. split; [exact Hav|].
  apply (frame_run_keeps_single_loop 1 Scenario.window Scenario.listening
           Hq Hf Hav).
Defined.

(** X3. The tick is confined to the feature state, the canvas and the frame
    queue: it never changes the listening flag, the audio context, the
    analyser, the stream, the open tracks, the pending device requests or
    the error log.  Nor does it look at the listening flag: run with the
    flag overwritten by any value, it does exactly the same and leaves the
    overwritten flag in place. *)
Theorem tick_leaves_session_untouched (win : AudioWindow) (s : State) :
  let s' := updateWaveform win s in
  isListening s' = isListening s
  /\ audioContextRef s' = audioContextRef s
  /\ analyserRef s' = analyserRef s
  /\ mediaStreamRef s' = mediaStreamRef s
  /\ liveTracks s' = liveTracks s
  /\ pendingMedia s' = pendingMedia s
  /\ consoleErrors s' = consoleErrors s
  /\ forall flag,
       updateWaveform win (set_isListening flag s)
       = set_isListening flag (updateWaveform win s).
Proof.
  cbn zeta.
  rewrite LifecycleFacts.tick_isListening, LifecycleFacts.tick_audioContextRef,
    LifecycleFacts.tick_analyserRef, LifecycleFacts.tick_mediaStreamRef,
    LifecycleFacts.tick_liveTracks, LifecycleFacts.tick_pendingMedia,
    LifecycleFacts.tick_consoleErrors.
  repeat (split; [reflexivity|]).
  intros flag. unfold updateWaveform.
  change (analyserRef (set_isListening flag s)) with (analyserRef s).
  change (canvasRef (set_isListening flag s)) with (canvasRef s).
  destruct (analyserRef s) as [a|];
    [destruct (canvasRef s) as [c|]; [destruct (context2d c)|]|];
    reflexivity.
Qed.

(** ** Effects of the single operations *)

Module StepFacts.
Import LifecycleFacts.

Lemma resume_granted_no_context (n : nat) (win : AudioWindow) (s : State) :
  audioContextRef s = None ->
  startListening_resume (Granted n) win s
  = console_error
      (set_mediaStreamRef (Some (mkStream (seq (tracksCreated s) n)))
         (set_tracksCreated (tracksCreated s + n)%nat
            (set_liveTracks (liveTracks s ++ seq (tracksCreated s) n)
               (set_pendingMedia (Nat.pred (pendingMedia s)) s)))).
Proof.
  intros H. unfold startListening_resume, open_stream.
  cbn [audioContextRef set_mediaStreamRef set_tracksCreated set_liveTracks
       set_pendingMedia getTracks tracksCreated liveTracks].
  now rewrite H.
Qed.

Lemma resume_granted_stream (n : nat) (win : AudioWindow) (s : State) :
  mediaStreamRef (startListening_resume (Granted n) win s)
  = Some (mkStream (seq (tracksCreated s) n)).
Proof.
  destruct (audioContextRef s) as [ctx|] eqn:Hctx.
  - rewrite (resume_granted n win s ctx Hctx), tick_mediaStreamRef.
    reflexivity.
  - now rewrite resume_granted_no_context.
Qed.

Lemma resume_granted_tracksCreated (n : nat) (win : AudioWindow)
  (s : State) :
  tracksCreated (startListening_resume (Granted n) win s)
  = (tracksCreated s + n)%nat.
Proof.
  destruct (audioContextRef s) as [ctx|] eqn:Hctx.
  - rewrite (resume_granted n win s ctx Hctx), tick_tracksCreated.
    reflexivity.
  - now rewrite resume_granted_no_context.
Qed.

Lemma resume_granted_audioContextRef (n : nat) (win : AudioWindow)
  (s : State) :
  audioContextRef (startListening_resume (Granted n) win s)
  = audioContextRef s.
Proof.
  destruct (audioContextRef s) as [ctx|] eqn:Hctx.
  - rewrite (resume_granted n win s ctx Hctx), tick_audioContextRef.
    exact Hctx.
  - rewrite resume_granted_no_context by exact Hctx. exact Hctx.
Qed.

Lemma resume_granted_isListening (n : nat) (win : AudioWindow) (s : State) :
  isListening (startListening_resume (Granted n) win s)
  = match audioContextRef s with
    | Some _ => true
    | None => isListening s
    end.
Proof.
  destruct (audioContextRef s) as [ctx|] eqn:Hctx.
  - rewrite (resume_granted n win s ctx Hctx), tick_isListening.
    reflexivity.
  - now rewrite resume_granted_no_context.
Qed.

Lemma resize_fields (w h : Z) (s : State) :
  isListening (resize w h s) = isListening s
  /\ volume (resize w h s) = volume s
  /\ pitch (resize w h s) = pitch s
  /\ audioContextRef (resize w h s) = audioContextRef s
  /\ analyserRef (resize w h s) = analyserRef s
  /\ mediaStreamRef (resize w h s) = mediaStreamRef s
  /\ liveTracks (resize w h s) = liveTracks s
  /\ tracksCreated (resize w h s) = tracksCreated s.
Proof. unfold resize. destruct (canvasRef s); repeat split. Qed.

Lemma stop_keeps_only_live (s : State) (t : nat) :
  In t (liveTracks (stopListening s)) -> In t (liveTracks s).
Proof.
  rewrite stopListening_eq. cbn [liveTracks].
  destruct (mediaStreamRef s) as [stream|]; [|tauto].
  intros H. now apply without_tracks_In in H.
Qed.

Lemma stop_keeps_unreferenced (s : State) (t : nat) :
  leaked t s -> In t (liveTracks (stopListening s)).
Proof.
  intros [Hin Hun]. rewrite stopListening_eq. cbn [liveTracks].
  destruct (mediaStreamRef s) as [stream|]; [|exact Hin].
  apply without_tracks_In. split; [exact Hin|]. now apply Hun.
Qed.

End StepFacts.

(** ** What is never released *)

(** X4. No step of the component, stopping and unmounting included, ever
    clears [audioContextRef] or [analyserRef]: once created, the audio
    context and the analyser stay referenced (the context is never
    closed). *)
Theorem audio_context_and_analyser_are_never_released (s s' : State) :
  step s s' ->
  (audioContextRef s <> None -> audioContextRef s' <> None)
  /\ (analyserRef s <> None -> analyserRef s' <> None).
Proof.
  intros Hstep. split.
  - destruct Hstep as [s c|s w h|s|s outcome win _|s id win _|s].
    + tauto.
    + now rewrite (proj1 (proj2 (proj2 (proj2 (StepFacts.resize_fields w h s))))).
    + unfold onClick. destruct (isListening s).
      * now rewrite LifecycleFacts.stopListening_eq.
      * discriminate.
    + destruct outcome as [n|].
      * now rewrite StepFacts.resume_granted_audioContextRef.
      * tauto.
    + unfold run_frame. now rewrite LifecycleFacts.tick_audioContextRef.
    + unfold unmount. now rewrite LifecycleFacts.stopListening_eq.
  - intros H.
    destruct (Invariants.step_analyserRef s s' Hstep) as [E|E]; rewrite E;
      [exact H | discriminate].
Qed.

Lemma audio_context_and_analyser_are_never_released_witness :
  step Scenario.listening (unmount Scenario.listening)
  /\ analyserRef (unmount Scenario.listening) <> None.
Proof.
  split; [apply step_unmount|].
  apply (audio_context_and_analyser_are_never_released Scenario.listening
           (unmount Scenario.listening) (step_unmount Scenario.listening)).
  rewrite ScenarioFacts.listening_analyser. discriminate.
Defined.

(** ** Invariants of the session *)

(** X5. Whenever a reachable state is listening, a stream, an analyser and an
    audio context are all in place. *)
Theorem listening_implies_session_resources (s : State) :
  reachable s ->
  isListening s = true ->
  mediaStreamRef s <> None /\ analyserRef s <> None
  /\ audioContextRef s <> None.
Proof.
  induction 1 as [|s s' Hr IH Hstep]; intros Hl; [discriminate|].
  destruct Hstep as [s c|s w h|s|s outcome win _|s id win _|s].
  - apply IH. exact Hl.
  - destruct (StepFacts.resize_fields w h s)
      as (E1 & _ & _ & E4 & E5 & E6 & _).
    rewrite E4, E5, E6. apply IH. now rewrite <- E1.
  - unfold onClick in Hl |- *. destruct (isListening s) eqn:E.
    + rewrite LifecycleFacts.stopListening_eq in Hl. discriminate.
    + cbn in Hl. congruence.
  - destruct outcome as [n|]; [|apply IH; exact Hl].
    rewrite StepFacts.resume_granted_isListening in Hl.
    rewrite StepFacts.resume_granted_stream,
      StepFacts.resume_granted_audioContextRef.
    destruct (audioContextRef s) as [ctx|] eqn:Hctx.
    + rewrite (LifecycleFacts.resume_granted n win s ctx Hctx),
        LifecycleFacts.tick_analyserRef.
      repeat split; discriminate.
    + destruct (IH Hl) as (_ & _ & Hc). congruence.
  - unfold run_frame in Hl |- *.
    rewrite LifecycleFacts.tick_isListening in Hl.
    rewrite LifecycleFacts.tick_mediaStreamRef,
      LifecycleFacts.tick_analyserRef, LifecycleFacts.tick_audioContextRef.
    apply IH. exact Hl.
  - unfold unmount in Hl. rewrite LifecycleFacts.stopListening_eq in Hl.
    discriminate.
Qed.

Lemma listening_implies_session_resources_witness :
  reachable Scenario.listening
  /\ isListening Scenario.listening = true
  /\ mediaStreamRef Scenario.listening <> None.
Proof.
  split; [exact ScenarioFacts.listening_reachable|].
  split; [exact ScenarioFacts.listening_isListening|].
  apply (listening_implies_session_resources Scenario.listening
           ScenarioFacts.listening_reachable
           ScenarioFacts.listening_isListening).
Defined.

Module TrackFacts.

Lemma tracks_known_reachable (s : State) : reachable s -> tracks_known s.
Proof.
  unfold tracks_known.
  induction 1 as [|s s' Hr IH Hstep]; intros t Ht; [contradiction|].
  destruct Hstep as [s c|s w h|s|s outcome win _|s id win _|s].
  - now apply IH.
  - destruct (StepFacts.resize_fields w h s)
      as (_ & _ & _ & _ & _ & _ & E7 & E8).
    rewrite E8. apply IH. now rewrite <- E7.
  - unfold onClick in Ht |- *. destruct (isListening s).
    + apply StepFacts.stop_keeps_only_live in Ht.
      rewrite LifecycleFacts.stopListening_eq. now apply IH.
    + now apply IH.
  - destruct outcome as [n|]; [|now apply IH].
    rewrite StartFacts.resume_granted_liveTracks in Ht.
    rewrite StepFacts.resume_granted_tracksCreated.
    apply in_app_or in Ht as [Ht|Ht].
    + specialize (IH t Ht). lia.
    + apply in_seq in Ht. lia.
  - unfold run_frame in Ht |- *.
    rewrite LifecycleFacts.tick_liveTracks in Ht.
    rewrite LifecycleFacts.tick_tracksCreated. now apply IH.
  - unfold unmount in Ht |- *.
    change (In t (liveTracks (stopListening s))) in Ht.
    apply StepFacts.stop_keeps_only_live in Ht.
    change (t < tracksCreated (stopListening s))%nat.
    rewrite LifecycleFacts.stopListening_eq. now apply IH.
Qed.

Lemma without_tracks_app (tracks l r : list nat) :
  without_tracks tracks (l ++ r)
  = without_tracks tracks l ++ without_tracks tracks r.
Proof.
  unfold without_tracks. revert l r.
  induction tracks as [|t tracks IH]; intros l r; [reflexivity|].
  simpl. now rewrite remove_app, IH.
Qed.

Lemma without_tracks_disjoint (tracks l : list nat) :
  (forall t, In t l -> ~ In t tracks) -> without_tracks tracks l = l.
Proof.
  unfold without_tracks. revert l.
  induction tracks as [|a tracks IH]; intros l H; [reflexivity|].
  simpl. rewrite notin_remove.
  - apply IH. intros t Ht Hin. apply (H t Ht). now right.
  - intros Hin. apply (H a Hin). now left.
Qed.

Lemma without_tracks_self (tracks : list nat) :
  without_tracks tracks tracks = [].
Proof.
  destruct (without_tracks tracks tracks) as [|t rest] eqn:E; [reflexivity|].
  assert (In t (without_tracks tracks tracks)) as H by (rewrite E; now left).
  apply LifecycleFacts.without_tracks_In in H. tauto.
Qed.

End TrackFacts.

(** X6. A track that is open but not referenced through [mediaStreamRef] (the
    stream of an earlier start that a later start overwrote) is never
    closed: after any step it is still open and still unreferenced. *)
Theorem leaked_track_stays_open (s s' : State) (t : nat) :
  reachable s ->
  step s s' ->
  leaked t s ->
  leaked t s'.
Proof.
  intros Hr Hstep Hleak.
  pose proof (TrackFacts.tracks_known_reachable s Hr) as Hknown.
  destruct Hleak as [Hin Hun].
  destruct Hstep as [s c|s w h|s|s outcome win _|s id win _|s].
  - split; assumption.
  - destruct (StepFacts.resize_fields w h s)
      as (_ & _ & _ & _ & _ & E6 & E7 & _).
    unfold leaked. rewrite E6, E7. split; assumption.
  - unfold onClick. destruct (isListening s).
    + split.
      * apply StepFacts.stop_keeps_unreferenced. split; assumption.
      * rewrite LifecycleFacts.stopListening_eq. discriminate.
    + split; assumption.
  - destruct outcome as [n|]; [|split; assumption].
    unfold leaked.
    rewrite StartFacts.resume_granted_liveTracks,
      StepFacts.resume_granted_stream.
    split.
    + apply in_or_app. now left.
    + intros stream [= <-]. cbn [getTracks]. intros Hseq.
      apply in_seq in Hseq. specialize (Hknown t Hin). lia.
  - unfold leaked, run_frame.
    rewrite LifecycleFacts.tick_liveTracks,
      LifecycleFacts.tick_mediaStreamRef.
    split; assumption.
  - unfold unmount. split.
    + change (In t (liveTracks (stopListening s))).
      apply StepFacts.stop_keeps_unreferenced. split; assumption.
    + change (mediaStreamRef (set_canvasRef None (stopListening s)))
        with (mediaStreamRef (stopListening s)).
      rewrite LifecycleFacts.stopListening_eq. discriminate.
Qed.

Module DoubleStartFacts.

Lemma liveTracks_eq : liveTracks Scenario.double_started = [0%nat; 1%nat].
Proof.
  unfold Scenario.double_started.
  rewrite !StartFacts.resume_granted_liveTracks,
    StepFacts.resume_granted_tracksCreated.
  reflexivity.
Qed.

Lemma stream_eq :
  mediaStreamRef Scenario.double_started = Some (mkStream [1%nat]).
Proof.
  unfold Scenario.double_started.
  rewrite StepFacts.resume_granted_stream,
    StepFacts.resume_granted_tracksCreated.
  reflexivity.
Qed.

Lemma first_track_leaked : leaked 0%nat Scenario.double_started.
Proof.
  split.
  - rewrite liveTracks_eq. now left.
  - rewrite stream_eq. intros stream [= <-]. cbn. lia.
Qed.

End DoubleStartFacts.

Lemma leaked_track_stays_open_witness :
  reachable Scenario.double_started
  /\ step Scenario.double_started (onClick Scenario.double_started)
  /\ leaked 0%nat Scenario.double_started
  /\ leaked 0%nat (onClick Scenario.double_started).
Proof.
  split; [exact (proj1 double_click_reaches_two_handles)|].
  split; [apply step_click|].
  split; [exact DoubleStartFacts.first_track_leaked|].
  apply (leaked_track_stays_open Scenario.double_started
           (onClick Scenario.double_started) 0%nat
           (proj1 double_click_reaches_two_handles)
           (step_click Scenario.double_started)
           DoubleStartFacts.first_track_leaked).
Defined.

(** ** Published features and what is displayed *)

Module RangeFacts.
Import LifecycleFacts.

Lemma pitch_of_1024_bins (fd : list byte) :
  length fd = 1024%nat ->
  (0 <= Features.normalizedPitch fd <= 51.15)%Q.
Proof.
  intros Hlen. split; [apply PitchFacts.pitch_range|].
  assert (fd <> []) as Hne by (intros E; rewrite E in Hlen; discriminate).
  pose proof (PitchFacts.maxIndex_lt fd Hne) as Hlt. rewrite Hlen in Hlt.
  unfold Features.normalizedPitch.
  eapply Qle_trans; [apply Q.le_min_l|].
  apply Qle_shift_div_r; [reflexivity|].
  apply Qle_trans with (inject_Z 1023).
  - apply LoudnessFacts.inject_Z_le. lia.
  - vm_compute. discriminate.
Qed.

Lemma tick_features_in_range (win : AudioWindow) (s : State) :
  (forall a, analyserRef s = Some a -> fftSize a = 2048%nat) ->
  features_in_range s -> features_in_range (updateWaveform win s).
Proof.
  intros Hfft Hrange. unfold updateWaveform.
  destruct (analyserRef s) as [a|] eqn:Ha;
    [destruct (canvasRef s) as [c|]; [destruct (context2d c)|]|];
    try exact Hrange.
  pose proof (Invariants.bins_of_2048 a (Hfft a eq_refl)) as Hbins.
  unfold features_in_range. cbn [volume pitch schedule_next
    requestAnimationFrame set_animationFrameRef set_nextFrameId
    set_frameQueue set_canvasRef set_pitch set_volume].
  split.
  - fold (tick_dataArray a win).
    rewrite <- (TickFacts.tick_dataArray_length a win).
    apply LoudnessFacts.volume_range.
    intros E.
    pose proof (TickFacts.tick_dataArray_length a win) as Hlen.
    rewrite E, Hbins in Hlen. discriminate.
  - fold (tick_frequencyData a win). apply pitch_of_1024_bins.
    now rewrite TickFacts.tick_frequencyData_length.
Qed.

Lemma zero_in_range : (0 <= 0 <= 100)%Q /\ (0 <= 0 <= 51.15)%Q.
Proof. repeat split; discriminate. Qed.

Lemma reachable_features_in_range (s : State) :
  reachable s -> features_in_range s.
Proof.
  unfold features_in_range.
  induction 1 as [|s s' Hr IH Hstep]; [exact zero_in_range|].
  pose proof (Invariants.analyser_fftSize s Hr) as Hfft.
  destruct Hstep as [s c|s w h|s|s outcome win _|s id win _|s].
  - exact IH.
  - destruct (StepFacts.resize_fields w h s) as (_ & E2 & E3 & _).
    now rewrite E2, E3.
  - unfold onClick. destruct (isListening s); [|exact IH].
    rewrite LifecycleFacts.stopListening_eq.
    exact zero_in_range.
  - destruct outcome as [n|]; [|exact IH].
    destruct (audioContextRef s) as [ctx|] eqn:Hctx.
    + rewrite (LifecycleFacts.resume_granted n win s ctx Hctx).
      apply tick_features_in_range; [|exact IH].
      intros a [= <-]. reflexivity.
    + rewrite StepFacts.resume_granted_no_context by exact Hctx. exact IH.
  - unfold run_frame.
    apply tick_features_in_range; [exact Hfft | exact IH].
  - unfold unmount.
    change ((0 <= volume (stopListening s) <= 100)%Q
            /\ (0 <= pitch (stopListening s) <= 51.15)%Q).
    rewrite LifecycleFacts.stopListening_eq.
    exact zero_in_range.
Qed.

End RangeFacts.

(** X7. In every reachable state the published loudness lies in [0, 100] and
    the published pitch proxy in [0, 51.15]. *)
Theorem published_features_stay_in_range (s : State) :
  reachable s ->
  (0 <= volume s <= 100)%Q /\ (0 <= pitch s <= 51.15)%Q.
Proof. exact (RangeFacts.reachable_features_in_range s). Qed.

Lemma published_features_stay_in_range_witness :
  reachable Scenario.listening
  /\ (0 <= volume Scenario.listening <= 100)%Q.
Proof.
  split; [exact ScenarioFacts.listening_reachable|].
  apply (published_features_stay_in_range Scenario.listening
           ScenarioFacts.listening_reachable).
Defined.

Module ViewFacts.

Lemma Math_round_monotone (x y : Q) :
  (x <= y)%Q -> Math_round x <= Math_round y.
Proof.
  intros H. unfold Math_round. apply Qfloor_resp_le.
  apply Qplus_le_l. exact H.
Qed.

Lemma Math_round_between (x lo hi : Q) :
  (lo <= x <= hi)%Q -> Math_round lo <= Math_round x <= Math_round hi.
Proof. intros [Hlo Hhi]. split; now apply Math_round_monotone. Qed.

End ViewFacts.

(** X8. In every reachable state the two percentage readouts are whole numbers
    within 0..100 (the pitch readout never above 51), the two bar widths
    are percentages within [0, 100], and the button offers stop exactly
    when the component is listening. *)
Theorem displayed_percentages_are_in_range (s : State) :
  reachable s ->
  let v := render_view s in
  0 <= volumeReadout v <= 100
  /\ 0 <= pitchReadout v <= 51
  /\ (0 <= volumeBarWidth v <= 100)%Q
  /\ (0 <= pitchBarWidth v <= 100)%Q
  /\ (buttonHandler v = HandlerStop <-> isListening s = true)
  /\ (buttonLabel v = LabelStop <-> isListening s = true)
  /\ run_handler (buttonHandler v) s = onClick s.
Proof.
  intros Hr. cbn zeta.
  destruct (RangeFacts.reachable_features_in_range s Hr) as [Hv Hp].
  unfold render_view.
  cbn [volumeReadout pitchReadout volumeBarWidth pitchBarWidth buttonHandler
       buttonLabel].
  split; [exact (ViewFacts.Math_round_between (volume s) 0 100 Hv)|].
  split; [exact (ViewFacts.Math_round_between (pitch s) 0 51.15 Hp)|].
  split; [exact Hv|].
  split.
  { destruct Hp as [Hp0 Hp1]. split; [exact Hp0|].
    eapply Qle_trans; [exact Hp1 | discriminate]. }
  unfold onClick.
  destruct (isListening s); repeat split; try discriminate; reflexivity.
Qed.

Lemma displayed_percentages_are_in_range_witness :
  reachable Scenario.listening
  /\ 0 <= volumeReadout (render_view Scenario.listening) <= 100.
Proof.
  split; [exact ScenarioFacts.listening_reachable|].
  apply (displayed_percentages_are_in_range Scenario.listening
           ScenarioFacts.listening_reachable).
Defined.

(** ** Start followed by stop *)

(** X9. From any reachable state, a granted start followed by a stop closes
    exactly the tracks that start opened (the open tracks are those of
    before), leaves no callback queued that was not queued before, and
    ends Idle with zeroed features and no stream referenced. *)
Theorem start_then_stop_releases_what_start_acquired (n : nat)
  (win : AudioWindow) (s : State) :
  reachable s ->
  let s' := stopListening (startListening (Granted n) win s) in
  liveTracks s' = liveTracks s
  /\ (forall id, In id (frameQueue s') -> In id (frameQueue s))
  /\ isListening s' = false /\ volume s' = 0%Q /\ pitch s' = 0%Q
  /\ mediaStreamRef s' = None /\ animationFrameRef s' = None.
Proof.
  intros Hr. cbn zeta.
  pose proof (TrackFacts.tracks_known_reachable s Hr) as Hknown.
  rewrite LifecycleFacts.stopListening_eq.
  cbn [liveTracks frameQueue isListening volume pitch mediaStreamRef
       animationFrameRef].
  split; [|split; [|repeat split]].
  - rewrite StartFacts.start_granted_stream. cbn [getTracks].
    unfold startListening.
    rewrite StartFacts.resume_granted_liveTracks,
      StartFacts.request_liveTracks, StartFacts.request_tracksCreated.
    rewrite TrackFacts.without_tracks_app, TrackFacts.without_tracks_self,
      app_nil_r.
    apply TrackFacts.without_tracks_disjoint.
    intros t Ht Hseq. apply in_seq in Hseq. specialize (Hknown t Ht). lia.
  - intros id. unfold startListening.
    rewrite (LifecycleFacts.resume_granted n win (startListening_request s)
               (mkAudioContext (contextsCreated s)) eq_refl).
    set (s0 := session_ready n (startListening_request s)).
    assert (frameQueue s0 = frameQueue s) as Hq0 by reflexivity.
    assert (nextFrameId s0 = nextFrameId s) as Hn0 by reflexivity.
    assert (animationFrameRef s0 = animationFrameRef s) as Hf0
      by reflexivity.
    unfold updateWaveform.
    destruct (analyserRef s0) as [a|];
      [destruct (canvasRef s0) as [c|]; [destruct (context2d c)|]|];
      cbn [animationFrameRef frameQueue schedule_next requestAnimationFrame
           set_animationFrameRef set_nextFrameId set_frameQueue
           set_canvasRef set_pitch set_volume];
      rewrite ?Hq0, ?Hn0, ?Hf0.
    + intros Hin. apply in_remove in Hin as [Hin Hne].
      apply in_app_or in Hin as [Hin|[E|[]]]; [exact Hin | congruence].
    + destruct (animationFrameRef s) as [old|]; [|tauto].
      intros Hin. now apply in_remove in Hin.
    + intros Hin. apply in_remove in Hin as [Hin Hne].
      apply in_app_or in Hin as [Hin|[E|[]]]; [exact Hin | congruence].
    + intros Hin. apply in_remove in Hin as [Hin Hne].
      apply in_app_or in Hin as [Hin|[E|[]]]; [exact Hin | congruence].
Qed.

Lemma start_then_stop_releases_what_start_acquired_witness :
  reachable Scenario.mounted
  /\ liveTracks
       (stopListening
          (startListening (Granted 1) Scenario.window Scenario.mounted))
     = liveTracks Scenario.mounted.
Proof.
  assert (reachable Scenario.mounted) as Hr.
  { apply (reachable_step initial); [apply reachable_initial|].
    apply step_mount. }
  split; [exact Hr|].
  apply (start_then_stop_releases_what_start_acquired 1 Scenario.window
           Scenario.mounted Hr).
Defined.

(** ** More on the features *)

Module SaturationFacts.
Import Features FeatureSpec.

Lemma scaled_mean_le_inv (sum n : Z) (c : Z) :
  0 < n ->
  (inject_Z c <= inject_Z sum / inject_Z n * 4)%Q ->
  c * n <= 4 * sum.
Proof.
  intros Hn H.
  assert (0 < inject_Z n)%Q as Hq by exact (LoudnessFacts.inject_Z_lt 0 n Hn).
  assert (inject_Z sum / inject_Z n * 4 == inject_Z (4 * sum) / inject_Z n)%Q
    as E.
  { rewrite inject_Z_mult. field. intros E. rewrite E in Hq.
    now apply Qlt_irrefl in Hq. }
  rewrite E in H.
  apply (Qmult_le_r _ _ (inject_Z n) Hq) in H.
  assert (inject_Z (4 * sum) / inject_Z n * inject_Z n == inject_Z (4 * sum))%Q
    as E2.
  { field. intros E0. rewrite E0 in Hq. now apply Qlt_irrefl in Hq. }
  rewrite E2, <- inject_Z_mult in H.
  now rewrite <- Zle_Qle in H.
Qed.

End SaturationFacts.

(** X10. The loudness of a non-empty buffer reaches the clamp value 100 exactly
    when the mean absolute deviation from 128 is at least 25; below that it
    is four times the mean deviation. *)
Theorem loudness_saturates_from_mean_deviation_25 (data : list byte) :
  data <> [] ->
  let N := length data in
  ((Features.newVolume N data == 100)%Q
   <-> 25 * Z.of_nat N <= FeatureSpec.deviation_sum data)
  /\ (FeatureSpec.deviation_sum data < 25 * Z.of_nat N ->
      (Features.newVolume N data
       == inject_Z (FeatureSpec.deviation_sum data)
          / inject_Z (Z.of_nat N) * 4)%Q).
Proof.
  intros Hne N. subst N.
  pose proof (LoudnessFacts.nonempty_length data Hne) as Hpos.
  unfold Features.newVolume. rewrite LoudnessFacts.sum_loop_spec.
  set (x := (inject_Z (FeatureSpec.deviation_sum data)
             / inject_Z (Z.of_nat (length data)) * 4)%Q).
  assert ((100 <= x)%Q
          <-> 25 * Z.of_nat (length data) <= FeatureSpec.deviation_sum data)
    as Hiff.
  { split.
    - intros H.
      pose proof (SaturationFacts.scaled_mean_le_inv _ _ 100 Hpos H). lia.
    - intros H. subst x. apply LoudnessFacts.scaled_mean_ge; [exact Hpos|].
      change 100%Q with (inject_Z 100). rewrite <- inject_Z_mult.
      apply LoudnessFacts.inject_Z_le. lia. }
  split.
  - split.
    + intros Hmin. apply Hiff.
      rewrite <- Hmin. apply Q.le_min_l.
    + intros H. apply Q.min_r. now apply Hiff.
  - intros Hlt. apply Q.min_l.
    destruct (Qlt_le_dec x 100) as [Hx|Hx]; [now apply Qlt_le_weak|].
    apply Hiff in Hx. lia.
Qed.

Lemma loudness_saturates_from_mean_deviation_25_witness :
  [x67; x99] <> []
  /\ (Features.newVolume 2 [x67; x99] == 100)%Q.
Proof.
  assert ([x67; x99] <> []) as Hne by discriminate.
  split; [exact Hne|].
  destruct (loudness_saturates_from_mean_deviation_25 [x67; x99] Hne)
    as [Hiff _].
  apply Hiff. vm_compute. discriminate.
Defined.

(** ** More on what is drawn *)

Module DrawFacts.

Lemma path_holds_only_vertices (N : nat) (data : list byte)
  (h sliceWidth af : Q) (c : DrawCmd) :
  In c (snd (Render.path_loop N data h sliceWidth af)) ->
  exists x y, c = MoveTo x y \/ c = LineTo x y.
Proof.
  unfold Render.path_loop. revert c.
  apply (for_loop_invariant
           (fun _ st => forall c, In c (snd st) ->
                          exists x y, c = MoveTo x y \/ c = LineTo x y)).
  - intros c [].
  - intros k [x path] _ IH c Hin. cbn [fst snd] in *.
    apply in_app_or in Hin as [Hin|[<-|[]]]; [now apply IH|].
    destruct (Nat.eqb k 0); eauto.
Qed.

Lemma path_sets_no_stroke_style (N : nat) (data : list byte)
  (h sliceWidth af : Q) :
  filter is_stroke_style (snd (Render.path_loop N data h sliceWidth af)) = [].
Proof.
  pose proof (path_holds_only_vertices N data h sliceWidth af) as H.
  induction (snd (Render.path_loop N data h sliceWidth af)) as [|c l IH];
    [reflexivity|].
  destruct (H c (or_introl eq_refl)) as (x & y & [-> | ->]); cbn;
    apply IH; intros c' Hc'; apply H; now right.
Qed.

Lemma stroke_style_of_draw (w h : Z) (N : nat) (data : list byte)
  (v p hue sat light : Q) :
  In (StrokeStyleHsl hue sat light) (Render.draw w h N data v p) ->
  hue = (p * 2)%Q /\ sat = 100%Q /\ light = 50%Q.
Proof.
  unfold Render.draw. intros Hin.
  apply in_app_or in Hin as [Hin|Hin].
  - cbn [In] in Hin.
    destruct Hin as [E|[E|[E|[E|[E|[]]]]]]; try discriminate.
    injection E as <- <- <-. repeat split.
  - apply in_app_or in Hin as [Hin|Hin].
    + apply path_holds_only_vertices in Hin as (x & y & [E|E]);
        discriminate.
    + cbn [In] in Hin. destruct Hin as [E|[E|[]]]; discriminate.
Qed.

Lemma vertex_at_same_height (first : bool) (x y y' : Q) (c : DrawCmd) :
  (y == y')%Q -> Render.vertex_at first x y c -> Render.vertex_at first x y' c.
Proof.
  intros E. destruct c; cbn; try tauto.
  - intros (Hf & Hx & Hy). repeat split; [exact Hf | exact Hx|].
    now rewrite Hy.
  - intros (Hf & Hx & Hy). repeat split; [exact Hf | exact Hx|].
    now rewrite Hy.
Qed.

Lemma midpoint_sample_height (h : Z) (data : list byte) (af : Q) (i : nat) :
  at_index data i = 128 ->
  (Render.spec_y h data af i == inject_Z h / 2)%Q.
Proof.
  intros E. unfold Render.spec_y. rewrite E.
  change (inject_Z 128) with 128%Q. field.
Qed.

Lemma all_at_index (l : list byte) (z : Z) (i : nat) :
  Forall (fun b => u8 b = z) l -> (i < length l)%nat -> at_index l i = z.
Proof.
  intros Hall Hi. unfold at_index.
  rewrite Forall_forall in Hall. apply Hall. now apply nth_In.
Qed.

End DrawFacts.

(** X11. On every drawing tick of a reachable state the block of commands the
    tick issues assigns the stroke colour exactly once; every assignment
    in the block is hsl(pitch * 2, 100%, 50%) of the pitch proxy the tick
    publishes, and its hue lies in [0, 102.3] degrees: the wave is drawn
    between red and green only. *)
Theorem stroke_hue_stays_between_red_and_green (win : AudioWindow)
  (s : State) :
  reachable s ->
  renders s ->
  let s' := updateWaveform win s in
  exists canvas canvas' block,
    canvasRef s = Some canvas /\ canvasRef s' = Some canvas'
    /\ commands canvas' = commands canvas ++ block
    /\ filter is_stroke_style block
       = [StrokeStyleHsl (pitch s' * 2) 100 50]
    /\ (forall hue saturation lightness,
          In (StrokeStyleHsl hue saturation lightness) block ->
          hue = (pitch s' * 2)%Q /\ saturation = 100%Q
          /\ lightness = 50%Q)
    /\ (0 <= pitch s' * 2 <= 102.3)%Q.
Proof.
  intros Hr (a & c & Ha & Hc & Hctx) s'. subst s'.
  pose proof (Invariants.bins_of_2048 a
                (Invariants.analyser_fftSize s Hr a Ha)) as Hbins.
  rewrite (TickFacts.updateWaveform_draws win s a c Ha Hc Hctx).
  set (p := Features.normalizedPitch (tick_frequencyData a win)).
  assert (0 <= p <= 51.15)%Q as [Hp0 Hp1].
  { apply RangeFacts.pitch_of_1024_bins.
    now rewrite TickFacts.tick_frequencyData_length. }
  exists c. eexists. eexists.
  split; [exact Hc|]. split; [reflexivity|]. split; [reflexivity|].
  cbn [pitch schedule_next requestAnimationFrame set_animationFrameRef
       set_nextFrameId set_frameQueue set_canvasRef set_pitch set_volume].
  split; [|split].
  - unfold Render.draw. rewrite !filter_app.
    rewrite DrawFacts.path_sets_no_stroke_style. reflexivity.
  - intros hue sat light Hin.
    now apply DrawFacts.stroke_style_of_draw in Hin.
  - split.
    + rewrite <- (Qmult_0_l 2). apply Qmult_le_compat_r; [exact Hp0|].
      discriminate.
    + apply Qle_trans with (51.15 * 2)%Q.
      * apply Qmult_le_compat_r; [exact Hp1 | discriminate].
      * vm_compute. discriminate.
Qed.

Lemma stroke_hue_stays_between_red_and_green_witness :
  reachable Scenario.listening
  /\ renders Scenario.listening
  /\ exists canvas',
       canvasRef (updateWaveform Scenario.window Scenario.listening)
       = Some canvas'.
Proof.
  split; [exact ScenarioFacts.listening_reachable|].
  split; [exact ScenarioFacts.listening_renders|].
  destruct (stroke_hue_stays_between_red_and_green Scenario.window
              Scenario.listening ScenarioFacts.listening_reachable
              ScenarioFacts.listening_renders)
    as (c & c' & block & _ & Hc' & _).
  exists c'. exact Hc'.
Defined.

(** X12. When every sample a drawing tick reads is 128 (silence), every vertex
    of the polyline lies on the horizontal centre line y = height / 2,
    whatever the loudness and pitch values are. *)
Theorem silent_input_draws_the_centre_line (win : AudioWindow) (s : State)
  (analyser : AnalyserNode) (canvas : Canvas) :
  analyserRef s = Some analyser ->
  canvasRef s = Some canvas ->
  context2d canvas = true ->
  Forall (fun sample => u8 sample = 128) (tick_dataArray analyser win) ->
  let N := frequencyBinCount analyser in
  let w := clientWidth canvas in
  let h := clientHeight canvas in
  exists canvas' path,
    canvasRef (updateWaveform win s) = Some canvas'
    /\ commands canvas' =
       commands canvas
       ++ [FillStyleRgb 20 20 30; FillRect 0 0 (inject_Z w) (inject_Z h);
           LineWidth 3;
           StrokeStyleHsl (pitch (updateWaveform win s) * 2) 100 50;
           BeginPath]
       ++ path ++ [LineTo (inject_Z w) (inject_Z h / 2)%Q; Stroke]
    /\ length path = N
    /\ forall i, (i < N)%nat ->
         Render.vertex_at (Nat.eqb i 0) (Render.spec_x w N i)
           (inject_Z h / 2)%Q (nth i path Stroke).
Proof.
  intros Ha Hc Hctx Hsilent N w h. subst N w h.
  rewrite (TickFacts.updateWaveform_draws win s analyser canvas Ha Hc Hctx).
  set (N := frequencyBinCount analyser).
  set (data := tick_dataArray analyser win) in *.
  set (v := Features.newVolume N data).
  set (p := Features.normalizedPitch (tick_frequencyData analyser win)).
  pose proof (TickFacts.path_loop_vertices N data (clientWidth canvas)
                (clientHeight canvas) (Features.amplitudeFactor v p))
    as (_ & Hlen & Hvs).
  eexists. eexists.
  split; [reflexivity|]. cbn [commands]. split; [reflexivity|].
  split; [exact Hlen|].
  intros i Hi.
  apply (DrawFacts.vertex_at_same_height _ _
           (Render.spec_y (clientHeight canvas) data
              (Features.amplitudeFactor v p) i)).
  - apply DrawFacts.midpoint_sample_height.
    apply DrawFacts.all_at_index; [exact Hsilent|].
    subst data. now rewrite TickFacts.tick_dataArray_length.
  - now apply Hvs.
Qed.

Lemma silent_input_draws_the_centre_line_witness :
  Forall (fun sample => u8 sample = 128)
    (tick_dataArray (mkAnalyser 2048) Scenario.silence)
  /\ exists canvas',
       canvasRef (updateWaveform Scenario.silence Scenario.first_tick_input)
       = Some canvas'.
Proof.
  assert (Forall (fun sample => u8 sample = 128)
            (tick_dataArray (mkAnalyser 2048) Scenario.silence)) as Hs.
  { assert (tick_dataArray (mkAnalyser 2048) Scenario.silence
            = repeat x80 1024) as -> by (vm_compute; reflexivity).
    apply Forall_forall. intros b Hb. apply repeat_spec in Hb.
    now subst b. }
  split; [exact Hs|].
  destruct (silent_input_draws_the_centre_line Scenario.silence
              Scenario.first_tick_input (mkAnalyser 2048) Scenario.canvas
              eq_refl eq_refl eq_refl Hs)
    as (c' & path & Hc' & _).
  exists c'. exact Hc'.
Defined.

(** X13. A change of the canvas's display box is adopted by the next drawing
    tick: the bitmap gets the new size, the background is filled over the
    new size and the path ends at the new right edge on the new centre
    line. *)
Theorem resize_is_adopted_by_the_next_tick (w h : Z) (win : AudioWindow)
  (s : State) :
  renders s ->
  let s' := updateWaveform win (resize w h s) in
  exists canvas canvas' path,
    canvasRef s = Some canvas
    /\ canvasRef s' = Some canvas'
    /\ width canvas' = w /\ height canvas' = h
    /\ commands canvas' =
       commands canvas
       ++ [FillStyleRgb 20 20 30; FillRect 0 0 (inject_Z w) (inject_Z h);
           LineWidth 3; StrokeStyleHsl (pitch s' * 2) 100 50; BeginPath]
       ++ path ++ [LineTo (inject_Z w) (inject_Z h / 2)%Q; Stroke].
Proof.
  intros (a & c & Ha & Hc & Hctx) s'. subst s'.
  set (c0 := mkCanvas (width c) (height c) w h (context2d c) (commands c)).
  assert (resize w h s = set_canvasRef (Some c0) s) as E
    by (unfold resize; now rewrite Hc).
  rewrite E.
  rewrite (TickFacts.updateWaveform_draws win (set_canvasRef (Some c0) s)
             a c0 Ha eq_refl Hctx).
  exists c. eexists. eexists.
  split; [exact Hc|].
  split; [reflexivity|]. split; [reflexivity|]. split; [reflexivity|].
  reflexivity.
Qed.

Lemma resize_is_adopted_by_the_next_tick_witness :
  renders Scenario.first_tick_input
  /\ exists canvas',
       canvasRef
         (updateWaveform Scenario.window
            (resize 1024 512 Scenario.first_tick_input)) = Some canvas'
       /\ width canvas' = 1024 /\ height canvas' = 512.
Proof.
  split; [exact ScenarioFacts.first_tick_input_renders|].
  destruct (resize_is_adopted_by_the_next_tick 1024 512 Scenario.window
              Scenario.first_tick_input
              ScenarioFacts.first_tick_input_renders)
    as (c & c' & path & _ & Hc' & Hw & Hh & _).
  exists c'. split; [exact Hc'|]. split; assumption.
Defined.

(** ** Teardown *)

(** X14. A callback that survives the unmount finds no canvas: it draws
    nothing and publishes nothing (the features stay 0, the state stays
    Idle), but it queues itself again. *)
Theorem stray_frame_after_unmount_only_reschedules (win : AudioWindow)
  (s : State) :
  let u := unmount s in
  let s' := updateWaveform win u in
  canvasRef s' = None
  /\ volume s' = 0%Q /\ pitch s' = 0%Q /\ isListening s' = false
  /\ liveTracks s' = liveTracks u
  /\ frameQueue s' = frameQueue u ++ [nextFrameId u].
Proof.
  cbn zeta.
  rewrite TickFacts.updateWaveform_not_ready by (right; reflexivity).
  unfold unmount.
  cbn [canvasRef volume pitch isListening liveTracks frameQueue nextFrameId
       schedule_next requestAnimationFrame set_animationFrameRef
       set_nextFrameId set_frameQueue set_canvasRef].
  rewrite LifecycleFacts.stopListening_eq. repeat split.
Qed.

(** X15. The unmount does not withdraw a device request that is still pending.
    When the request is granted afterwards, the tracks are opened and
    referenced, the component is marked listening and, the canvas being
    gone, a callback is queued. *)
Theorem grant_after_unmount_still_opens_the_device (n : nat)
  (win : AudioWindow) (s : State) :
  (0 < pendingMedia s)%nat ->
  audioContextRef s <> None ->
  let u := unmount s in
  let s' := startListening_resume (Granted n) win u in
  step u s'
  /\ handleCount s' = (handleCount u + n)%nat
  /\ mediaStreamRef s' = Some (mkStream (seq (tracksCreated u) n))
  /\ isListening s' = true
  /\ frameQueue s' = frameQueue u ++ [nextFrameId u].
Proof.
  intros Hpending Hctx. cbn zeta.
  assert (pendingMedia (unmount s) = pendingMedia s) as Hp.
  { unfold unmount.
    change (pendingMedia (stopListening s) = pendingMedia s).
    now rewrite LifecycleFacts.stopListening_eq. }
  assert (audioContextRef (unmount s) = audioContextRef s) as Hc.
  { unfold unmount.
    change (audioContextRef (stopListening s) = audioContextRef s).
    now rewrite LifecycleFacts.stopListening_eq. }
  split; [apply step_settle; now rewrite Hp|].
  split.
  { unfold handleCount.
    now rewrite StartFacts.resume_granted_liveTracks, length_app,
      length_seq. }
  split; [apply StepFacts.resume_granted_stream|].
  split.
  { rewrite StepFacts.resume_granted_isListening, Hc.
    destruct (audioContextRef s); [reflexivity | congruence]. }
  destruct (audioContextRef (unmount s)) as [ctx|] eqn:E;
    [|congruence].
  rewrite (LifecycleFacts.resume_granted n win (unmount s) ctx E).
  rewrite TickFacts.updateWaveform_not_ready by (right; reflexivity).
  reflexivity.
Qed.

Lemma grant_after_unmount_still_opens_the_device_witness :
  (0 < pendingMedia (onClick Scenario.mounted))%nat
  /\ audioContextRef (onClick Scenario.mounted) <> None
  /\ handleCount
       (startListening_resume (Granted 1) Scenario.window
          (unmount (onClick Scenario.mounted))) = 1%nat.
Proof.
  assert (0 < pendingMedia (onClick Scenario.mounted))%nat as Hp
    by (vm_compute; lia).
  assert (audioContextRef (onClick Scenario.mounted) <> None) as Hc
    by discriminate.
  split; [exact Hp|]. split; [exact Hc|].
  destruct (grant_after_unmount_still_opens_the_device 1 Scenario.window
              (onClick Scenario.mounted) Hp Hc) as (_ & Hcount & _).
  rewrite Hcount. reflexivity.
Defined.

(** ** Stopping after a double start *)

Module OverwrittenSessionFacts.
Import LifecycleFacts.


(** The state after the first of the two requests has settled. *)
Local Abbreviation once :=
  (startListening_resume (Granted 1) Scenario.window
     (onClick (onClick Scenario.mounted))).








End OverwrittenSessionFacts.

